(** * types-expo-store: the namespaced, schema-validated store over a secure
      key/value backend

    A shallow embedding of [src/lib/TypeSafeStore.ts] and [src/lib/index.ts].

    - [Module JS] models the part of the JavaScript run time the store calls:
      values, [typeof], [String(v)], [JSON.stringify] and [JSON.parse].
    - [Module Eff] is the monad the methods run in: a world (backend
      contents, pending timers, clock, device) is threaded through, and a
      call either completes normally or throws.
    - [Module SecureStore] is the external backend, [expo-secure-store],
      as a finite map from keys to strings whose calls may raise.
    - [Module TypeSafeStore] is the class, method by method.
    - [Module Index] is the module-level API bound to the default store.

    All definitions come first; the lemmas and the theorems about the
    specification's claims follow them. *)

From Stdlib Require Import ZArith NArith String Ascii List Lia Bool.
From stdpp Require Import gmap strings.

Open Scope string_scope.

(* ===================================================================== *)
(** * The JavaScript values the store handles *)
(* ===================================================================== *)

Module JS.

(** ** Numbers

    A finite JavaScript number is kept as an exact decimal: an integer
    [NInt z], or [NDec m e] for the non-integer [m / 10^e], where [m] is
    not a multiple of ten.  Zero is [NInt 0] (plus and minus zero are
    identified, as [===] does).  The embedding is exact wherever the
    IEEE-754 double is: for decimals of at most fifteen significant digits
    within the exponent range, so in particular for every safe integer.
    The three non-finite numbers are [NNaN] and [NInf]. *)
Inductive JSNumber : Type :=
| NInt (z : Z)
| NDec (m : Z) (e : positive)
| NNaN
| NInf (negative : bool).

(** ** Values

    [undefined], [null], booleans, numbers, strings, arrays and plain
    objects.  An object is the list of its own enumerable properties in
    property order.  Strings are sequences of the code units 0..255.
    Functions, symbols, bigints and class instances are not modelled. *)
Unset Elimination Schemes.
Inductive JSValue : Type :=
| JUndefined
| JNull
| JBool (b : bool)
| JNum (n : JSNumber)
| JStr (s : string)
| JArr (elems : list JSValue)
| JObj (props : list (string * JSValue)).
Set Elimination Schemes.

(** Induction over values, with the hypotheses for the elements of an array
    and the property values of an object. *)
Definition JSValue_ind (P : JSValue -> Prop)
    (Hundef : P JUndefined) (Hnull : P JNull)
    (Hbool : forall b, P (JBool b)) (Hnum : forall n, P (JNum n))
    (Hstr : forall s, P (JStr s))
    (Harr : forall elems, Forall P elems -> P (JArr elems))
    (Hobj : forall props, Forall (fun kv => P (snd kv)) props -> P (JObj props))
  : forall v, P v :=
  fix go (v : JSValue) : P v :=
    match v with
    | JUndefined => Hundef
    | JNull => Hnull
    | JBool b => Hbool b
    | JNum n => Hnum n
    | JStr s => Hstr s
    | JArr elems =>
        Harr elems
          ((fix all (l : list JSValue) : Forall P l :=
              match l with
              | [] => @List.Forall_nil _ _
              | x :: l' => @List.Forall_cons _ _ x l' (go x) (all l')
              end) elems)
    | JObj props =>
        Hobj props
          ((fix all (l : list (string * JSValue)) : Forall (fun kv => P (snd kv)) l :=
              match l with
              | [] => @List.Forall_nil _ _
              | kv :: l' => @List.Forall_cons _ _ kv l' (go (snd kv)) (all l')
              end) props)
    end.

(** The result of the [typeof] operator. *)
Definition typeof (v : JSValue) : string :=
  match v with
  | JUndefined => "undefined"
  | JNull => "object"
  | JBool _ => "boolean"
  | JNum _ => "number"
  | JStr _ => "string"
  | JArr _ => "object"
  | JObj _ => "object"
  end.

(** Truthiness of a string: only the empty string is falsy. *)
Definition truthy (s : string) : bool :=
  match s with
  | EmptyString => false
  | String _ _ => true
  end.

(** ** Characters *)

Definition dquote : ascii := "034"%char.
Definition backslash : ascii := "092"%char.

Definition is_digit (c : ascii) : bool :=
  let n := nat_of_ascii c in (48 <=? n)%nat && (n <=? 57)%nat.

(** The four white space characters of the JSON grammar. *)
Definition is_ws (c : ascii) : bool :=
  let n := nat_of_ascii c in
  (n =? 32)%nat || (n =? 9)%nat || (n =? 10)%nat || (n =? 13)%nat.

Definition digit_of_ascii (c : ascii) : N := N_of_ascii c - 48.
Definition ascii_of_digit (d : N) : ascii := ascii_of_N (48 + d).

(** ** Decimal digits of a natural number *)

Fixpoint N_digits (fuel : nat) (n : N) (acc : string) : string :=
  match fuel with
  | O => acc
  | S fuel' =>
      let acc' := String (ascii_of_digit (n mod 10)) acc in
      if (n <? 10)%N then acc' else N_digits fuel' (n / 10) acc'
  end.

(** A number has no more decimal digits than binary ones. *)
Definition N_to_string (n : N) : string := N_digits (S (N.to_nat (N.log2 n))) n "".

(** Horner evaluation of a string of digits. *)
Fixpoint N_of_digits (acc : N) (s : string) : N :=
  match s with
  | EmptyString => acc
  | String c s' => N_of_digits (10 * acc + digit_of_ascii c) s'
  end.

Fixpoint zeros (n : nat) : string :=
  match n with
  | O => ""
  | S n' => String "0" (zeros n')
  end.

(** The digits without the zeros at their end, and how many were removed. *)
Fixpoint strip_zeros (s : string) : string * nat :=
  match s with
  | EmptyString => ("", O)
  | String c s' =>
      let '(t, k) := strip_zeros s' in
      match t with
      | EmptyString => if Ascii.eqb c "0" then ("", S k) else (String c "", k)
      | String _ _ => (String c t, k)
      end
  end.

(** ** [Number::toString] (radix 10)

    [digits] are the significant digits [s] of the number, [k] of them, and
    [n] is the position of the decimal point: the number is
    [s * 10^(n-k)].  The four layouts are those of the language
    specification. *)
Definition Number_layout (digits : string) (n : Z) : string :=
  let k := Z.of_nat (String.length digits) in
  if (k <=? n)%Z && (n <=? 21)%Z then
    digits ++ zeros (Z.to_nat (n - k))
  else if (0 <? n)%Z && (n <=? 21)%Z then
    substring 0 (Z.to_nat n) digits ++ "."
      ++ substring (Z.to_nat n) (Z.to_nat (k - n)) digits
  else if (-6 <? n)%Z && (n <=? 0)%Z then
    "0." ++ zeros (Z.to_nat (- n)) ++ digits
  else
    let e := (n - 1)%Z in
    let exponent := (if (e <? 0)%Z then "e-" else "e+") ++ N_to_string (Z.abs_N e) in
    match digits with
    | EmptyString => ""
    | String d EmptyString => String d exponent
    | String d rest => String d ("." ++ rest ++ exponent)
    end.

Definition Number_toString (x : JSNumber) : string :=
  match x with
  | NNaN => "NaN"
  | NInf negative => if negative then "-Infinity" else "Infinity"
  | NInt z =>
      if (z =? 0)%Z then "0"
      else
        let all := N_to_string (Z.abs_N z) in
        let '(s, _) := strip_zeros all in
        (if (z <? 0)%Z then "-" else "")
          ++ Number_layout s (Z.of_nat (String.length all))
  | NDec m e =>
      let s := N_to_string (Z.abs_N m) in
      (if (m <? 0)%Z then "-" else "")
        ++ Number_layout s (Z.of_nat (String.length s) - Z.pos e)
  end.

Definition is_finite (x : JSNumber) : bool :=
  match x with
  | NInt _ | NDec _ _ => true
  | NNaN | NInf _ => false
  end.

(** ** [String(v)] *)

Fixpoint join_with (sep : string) (parts : list string) : string :=
  match parts with
  | [] => ""
  | p :: ps =>
      match ps with
      | [] => p
      | _ :: _ => p ++ sep ++ join_with sep ps
      end
  end.

(** [ToString]: a primitive is printed; an array is the comma-joined
    [String] of its elements, [null] and [undefined] printing as nothing;
    a plain object is ["[object Object]"]. *)
Fixpoint ToString (v : JSValue) : string :=
  match v with
  | JUndefined => "undefined"
  | JNull => "null"
  | JBool b => if b then "true" else "false"
  | JNum n => Number_toString n
  | JStr s => s
  | JArr elems =>
      join_with ","
        (map (fun e => match e with
                       | JUndefined | JNull => ""
                       | _ => ToString e
                       end) elems)
  | JObj _ => "[object Object]"
  end.

(** ** [JSON.stringify] *)

Definition hex_digit (n : nat) : ascii :=
  if (n <? 10)%nat then ascii_of_nat (48 + n) else ascii_of_nat (87 + n).

(** One code unit inside a JSON string literal. *)
Definition quote_char (c : ascii) : string :=
  let n := nat_of_ascii c in
  if (n =? 8)%nat then String backslash "b"
  else if (n =? 9)%nat then String backslash "t"
  else if (n =? 10)%nat then String backslash "n"
  else if (n =? 12)%nat then String backslash "f"
  else if (n =? 13)%nat then String backslash "r"
  else if (n =? 34)%nat then String backslash (String dquote "")
  else if (n =? 92)%nat then String backslash (String backslash "")
  else if (n <? 32)%nat then
    String backslash
      ("u00" ++ String (hex_digit (n / 16)) (String (hex_digit (n mod 16)) ""))
  else String c "".

Fixpoint quote_chars (s : string) : string :=
  match s with
  | EmptyString => ""
  | String c s' => quote_char c ++ quote_chars s'
  end.

Definition QuoteJSONString (s : string) : string :=
  String dquote (quote_chars s ++ String dquote "").

(** [JSON.stringify(v)]: [None] is the result [undefined].  Inside an array
    an element without a serialization is written [null]; inside an object
    such a property is left out.  A number that is not finite is written
    [null]. *)
Fixpoint JSON_stringify (v : JSValue) : option string :=
  match v with
  | JUndefined => None
  | JNull => Some "null"
  | JBool b => Some (if b then "true" else "false")
  | JNum n => Some (if is_finite n then Number_toString n else "null")
  | JStr s => Some (QuoteJSONString s)
  | JArr elems =>
      Some ("[" ++ join_with ","
                     (map (fun e => match JSON_stringify e with
                                    | Some t => t
                                    | None => "null"
                                    end) elems)
                ++ "]")
  | JObj props =>
      Some ("{" ++ join_with ","
                     (flat_map (fun kv => match JSON_stringify (snd kv) with
                                          | Some t => [QuoteJSONString (fst kv) ++ ":" ++ t]
                                          | None => []
                                          end) props)
                ++ "}")
  end.

(** The text an array element is written as. *)
Definition text_of (v : JSValue) : string :=
  match JSON_stringify v with
  | Some t => t
  | None => "null"
  end.

(** ** [JSON.parse] *)

Fixpoint skip_ws (s : string) : string :=
  match s with
  | EmptyString => ""
  | String c s' => if is_ws c then skip_ws s' else s
  end.

(** The longest prefix of digits, and what follows it. *)
Fixpoint span_digits (s : string) : string * string :=
  match s with
  | EmptyString => ("", "")
  | String c s' =>
      if is_digit c then
        let '(d, r) := span_digits s' in (String c d, r)
      else ("", s)
  end.

(** [expect lit s] removes the prefix [lit] from [s]. *)
Fixpoint expect (lit s : string) : option string :=
  match lit with
  | EmptyString => Some s
  | String a lit' =>
      match s with
      | EmptyString => None
      | String c s' => if Ascii.eqb a c then expect lit' s' else None
      end
  end.

(** The integer part: a single [0], or a digit other than [0] followed by
    digits. *)
Definition parse_int_part (s : string) : option (string * string) :=
  match s with
  | EmptyString => None
  | String c s' =>
      if Ascii.eqb c "0" then Some ("0", s')
      else if is_digit c then
        let '(d, r) := span_digits s' in Some (String c d, r)
      else None
  end.

(** The digits of the fraction, none when there is no decimal point. *)
Definition parse_frac_part (s : string) : option (string * string) :=
  match s with
  | EmptyString => Some ("", "")
  | String c s' =>
      if Ascii.eqb c "." then
        let '(d, r) := span_digits s' in
        match d with
        | EmptyString => None
        | String _ _ => Some (d, r)
        end
      else Some ("", s)
  end.

(** The decimal exponent, [0] when there is none. *)
Definition parse_exp_part (s : string) : option (Z * string) :=
  match s with
  | EmptyString => Some (0%Z, "")
  | String c s' =>
      if Ascii.eqb c "e" || Ascii.eqb c "E" then
        let '(negative, s'') :=
          match s' with
          | EmptyString => (false, s')
          | String sg t =>
              if Ascii.eqb sg "-" then (true, t)
              else if Ascii.eqb sg "+" then (false, t)
              else (false, s')
          end in
        let '(d, r) := span_digits s'' in
        match d with
        | EmptyString => None
        | String _ _ =>
            let x := Z.of_N (N_of_digits 0 d) in
            Some (if negative then (- x)%Z else x, r)
        end
      else Some (0%Z, s)
  end.

(** Removes zeros at the end of [m] while decimals remain. *)
Fixpoint drop_zeros (fuel : nat) (m : N) (decimals : Z) : N * Z :=
  match fuel with
  | O => (m, decimals)
  | S fuel' =>
      if (0 <? decimals)%Z && (m mod 10 =? 0)%N then
        drop_zeros fuel' (m / 10) (decimals - 1)
      else (m, decimals)
  end.

Definition signed (negative : bool) (m : N) : Z :=
  if negative then (- Z.of_N m)%Z else Z.of_N m.

(** The number [m * 10^e], with the sign given. *)
Definition make_number (negative : bool) (m : N) (e : Z) : JSNumber :=
  if (m =? 0)%N then NInt 0
  else if (0 <=? e)%Z then NInt (signed negative m * 10 ^ e)
  else
    let '(m', d) := drop_zeros (S (N.to_nat (N.log2 m))) m (- e) in
    if (d =? 0)%Z then NInt (signed negative m')
    else NDec (signed negative m') (Z.to_pos d).

Definition parse_number (s : string) : option (JSNumber * string) :=
  let '(negative, s1) :=
    match s with
    | EmptyString => (false, s)
    | String c s' => if Ascii.eqb c "-" then (true, s') else (false, s)
    end in
  match parse_int_part s1 with
  | None => None
  | Some (ids, s2) =>
      match parse_frac_part s2 with
      | None => None
      | Some (fds, s3) =>
          match parse_exp_part s3 with
          | None => None
          | Some (x, s4) =>
              Some (make_number negative (N_of_digits 0 (ids ++ fds))
                      (x - Z.of_nat (String.length fds)), s4)
          end
      end
  end.

Definition hex_value (c : ascii) : option nat :=
  let n := nat_of_ascii c in
  if (48 <=? n)%nat && (n <=? 57)%nat then Some (n - 48)%nat
  else if (97 <=? n)%nat && (n <=? 102)%nat then Some (n - 87)%nat
  else if (65 <=? n)%nat && (n <=? 70)%nat then Some (n - 55)%nat
  else None.

(** The character a one-letter escape stands for. *)
Definition unescape (c : ascii) : option ascii :=
  if Ascii.eqb c dquote then Some dquote
  else if Ascii.eqb c backslash then Some backslash
  else if Ascii.eqb c "/" then Some "/"%char
  else if Ascii.eqb c "b" then Some (ascii_of_nat 8)
  else if Ascii.eqb c "f" then Some (ascii_of_nat 12)
  else if Ascii.eqb c "n" then Some (ascii_of_nat 10)
  else if Ascii.eqb c "r" then Some (ascii_of_nat 13)
  else if Ascii.eqb c "t" then Some (ascii_of_nat 9)
  else None.

(** The code unit of a [\uXXXX] escape.  Strings here hold the code units
    0..255 only: a larger one is kept modulo 256. *)
Definition unicode_escape (h1 h2 h3 h4 : ascii) : option ascii :=
  match hex_value h1, hex_value h2, hex_value h3, hex_value h4 with
  | Some a, Some b, Some c, Some d =>
      Some (ascii_of_nat ((((a * 16 + b) * 16 + c) * 16 + d) mod 256))
  | _, _, _, _ => None
  end.

(** The characters of a string literal after its opening quote, up to and
    including the closing quote. *)
Fixpoint parse_string_body (s : string) : option (string * string) :=
  match s with
  | EmptyString => None
  | String c s' =>
      if Ascii.eqb c dquote then Some ("", s')
      else if Ascii.eqb c backslash then
        match s' with
        | EmptyString => None
        | String x s'' =>
            if Ascii.eqb x "u" then
              match s'' with
              | String h1 (String h2 (String h3 (String h4 t))) =>
                  match unicode_escape h1 h2 h3 h4 with
                  | None => None
                  | Some u =>
                      match parse_string_body t with
                      | None => None
                      | Some (body, rest) => Some (String u body, rest)
                      end
                  end
              | _ => None
              end
            else
              match unescape x with
              | None => None
              | Some u =>
                  match parse_string_body s'' with
                  | None => None
                  | Some (body, rest) => Some (String u body, rest)
                  end
              end
        end
      else if (nat_of_ascii c <? 32)%nat then None
      else
        match parse_string_body s' with
        | None => None
        | Some (body, rest) => Some (String c body, rest)
        end
  end.

(** Defining a property twice keeps its first position and its last
    value. *)
Fixpoint set_property (k : string) (v : JSValue) (props : list (string * JSValue))
  : list (string * JSValue) :=
  match props with
  | [] => [(k, v)]
  | (k', v') :: ps =>
      if String.eqb k k' then (k', v) :: ps else (k', v') :: set_property k v ps
  end.

Definition build_object (members : list (string * JSValue)) : list (string * JSValue) :=
  fold_left (fun o kv => set_property (fst kv) (snd kv) o) members [].

(** The recursive descent.  [fuel] bounds the number of nested calls; each
    call passes one unit less to the calls it makes. *)
Fixpoint parse_value (fuel : nat) (s : string) {struct fuel}
  : option (JSValue * string) :=
  match fuel with
  | O => None
  | S fuel' =>
      match skip_ws s with
      | EmptyString => None
      | String c rest =>
          if Ascii.eqb c "{" then
            match skip_ws rest with
            | EmptyString => None
            | String c' rest' =>
                if Ascii.eqb c' "}" then Some (JObj [], rest')
                else
                  match parse_members fuel' rest with
                  | None => None
                  | Some (members, rest'') => Some (JObj (build_object members), rest'')
                  end
            end
          else if Ascii.eqb c "[" then
            match skip_ws rest with
            | EmptyString => None
            | String c' rest' =>
                if Ascii.eqb c' "]" then Some (JArr [], rest')
                else
                  match parse_elements fuel' rest with
                  | None => None
                  | Some (elems, rest'') => Some (JArr elems, rest'')
                  end
            end
          else if Ascii.eqb c dquote then
            match parse_string_body rest with
            | None => None
            | Some (str, rest') => Some (JStr str, rest')
            end
          else if Ascii.eqb c "t" then
            match expect "rue" rest with
            | None => None
            | Some rest' => Some (JBool true, rest')
            end
          else if Ascii.eqb c "f" then
            match expect "alse" rest with
            | None => None
            | Some rest' => Some (JBool false, rest')
            end
          else if Ascii.eqb c "n" then
            match expect "ull" rest with
            | None => None
            | Some rest' => Some (JNull, rest')
            end
          else
            match parse_number (String c rest) with
            | None => None
            | Some (n, rest') => Some (JNum n, rest')
            end
      end
  end

with parse_elements (fuel : nat) (s : string) {struct fuel}
  : option (list JSValue * string) :=
  match fuel with
  | O => None
  | S fuel' =>
      match parse_value fuel' s with
      | None => None
      | Some (v, rest) =>
          match skip_ws rest with
          | EmptyString => None
          | String c rest' =>
              if Ascii.eqb c "," then
                match parse_elements fuel' rest' with
                | None => None
                | Some (vs, rest'') => Some (v :: vs, rest'')
                end
              else if Ascii.eqb c "]" then Some ([v], rest')
              else None
          end
      end
  end

with parse_members (fuel : nat) (s : string) {struct fuel}
  : option (list (string * JSValue) * string) :=
  match fuel with
  | O => None
  | S fuel' =>
      match skip_ws s with
      | EmptyString => None
      | String q s1 =>
          if Ascii.eqb q dquote then
            match parse_string_body s1 with
            | None => None
            | Some (k, s2) =>
                match skip_ws s2 with
                | EmptyString => None
                | String colon s3 =>
                    if Ascii.eqb colon ":" then
                      match parse_value fuel' s3 with
                      | None => None
                      | Some (v, rest) =>
                          match skip_ws rest with
                          | EmptyString => None
                          | String c rest' =>
                              if Ascii.eqb c "," then
                                match parse_members fuel' rest' with
                                | None => None
                                | Some (ms, rest'') => Some ((k, v) :: ms, rest'')
                                end
                              else if Ascii.eqb c "}" then Some ([(k, v)], rest')
                              else None
                          end
                      end
                    else None
                end
            end
          else None
      end
  end.

(** Fuel that no text exhausts: a call consumes a character before it
    makes two nested calls. *)
Definition parse_fuel (s : string) : nat := 2 * String.length s + 2.

(** [JSON.parse(text)]: [None] is the [SyntaxError] it throws.  After the
    value only white space may follow. *)
Definition JSON_parse (text : string) : option JSValue :=
  match parse_value (parse_fuel text) text with
  | None => None
  | Some (v, rest) =>
      match skip_ws rest with
      | EmptyString => Some v
      | String _ _ => None
      end
  end.

(** ** Values that JSON represents

    A number is well formed when it is written in the one way the
    embedding reads it: the mantissa of [NDec] is not a multiple of ten. *)
Definition wf_number (x : JSNumber) : bool :=
  match x with
  | NDec m _ => negb (m mod 10 =? 0)%Z
  | _ => true
  end.

Fixpoint distinct (keys : list string) : bool :=
  match keys with
  | [] => true
  | k :: ks => negb (existsb (String.eqb k) ks) && distinct ks
  end.

(** [null], booleans, finite numbers, strings, and the arrays and objects
    made of them, no object naming a property twice: the values that
    [JSON.stringify] writes without loss.  [undefined] and the numbers
    that are not finite are not among them. *)
Fixpoint representable (v : JSValue) : bool :=
  match v with
  | JUndefined => false
  | JNull => true
  | JBool _ => true
  | JNum n => is_finite n && wf_number n
  | JStr _ => true
  | JArr elems => forallb representable elems
  | JObj props =>
      forallb (fun kv => representable (snd kv)) props && distinct (map fst props)
  end.

(** The values whose [typeof] is ['string'], ['number'] or ['boolean']:
    those [setFn] writes with [String]; the others go through
    [JSON.stringify]. *)
Definition is_primitive (v : JSValue) : bool :=
  String.eqb (typeof v) "string" || String.eqb (typeof v) "number"
  || String.eqb (typeof v) "boolean".

(** Deep equality: arrays element by element, objects property by
    property whatever the order. *)
Definition same_number (x y : JSNumber) : bool :=
  match x, y with
  | NInt a, NInt b => (a =? b)%Z
  | NDec a e, NDec b f => (a =? b)%Z && (e =? f)%positive
  | NNaN, NNaN => true
  | NInf a, NInf b => Bool.eqb a b
  | _, _ => false
  end.

Fixpoint property (k : string) (props : list (string * JSValue)) : option JSValue :=
  match props with
  | [] => None
  | (k', v) :: ps => if String.eqb k k' then Some v else property k ps
  end.

Fixpoint deep_equal (a b : JSValue) {struct a} : bool :=
  match a, b with
  | JUndefined, JUndefined => true
  | JNull, JNull => true
  | JBool x, JBool y => Bool.eqb x y
  | JNum x, JNum y => same_number x y
  | JStr x, JStr y => String.eqb x y
  | JArr xs, JArr ys =>
      (fix all (xs : list JSValue) (ys : list JSValue) {struct xs} : bool :=
         match xs, ys with
         | [], [] => true
         | x :: xs', y :: ys' => deep_equal x y && all xs' ys'
         | _, _ => false
         end) xs ys
  | JObj ps, JObj qs =>
      (length ps =? length qs)%nat
      && (fix all (ps : list (string * JSValue)) {struct ps} : bool :=
            match ps with
            | [] => true
            | kv :: ps' =>
                match property (fst kv) qs with
                | Some y => deep_equal (snd kv) y
                | None => false
                end && all ps'
            end) ps
  | _, _ => false
  end.

(** ** Measures used in the proofs about the parser *)

Fixpoint all_digits (s : string) : bool :=
  match s with
  | EmptyString => true
  | String c s' => is_digit c && all_digits s'
  end.

(** What may follow a value inside a text: nothing, or a comma, a closing
    bracket or a closing brace. *)
Definition ends_token (rest : string) : bool :=
  match rest with
  | EmptyString => true
  | String c _ => Ascii.eqb c "," || Ascii.eqb c "]" || Ascii.eqb c "}"
  end.

(** The fuel that parsing the text of a value takes. *)
Fixpoint weight (v : JSValue) : nat :=
  match v with
  | JArr elems => S (fold_right (fun e n => S (weight e + n)) O elems)
  | JObj props => S (fold_right (fun kv n => S (weight (snd kv) + n)) O props)
  | _ => 1
  end.

End JS.

(* ===================================================================== *)
(** * Effects: the world, completions and the event loop's timers *)
(* ===================================================================== *)

Module Eff.

(** What a call can throw. *)
Inductive Exn : Type :=
| SyntaxError
| SecureStoreError.

(** [SecureStoreOptions] of the backend; the store only passes them on. *)
Record SecureStoreOptions : Type := {
  keychainService : option string;
  requireAuthentication : option bool;
  authenticationPrompt : option string
}.

(** The calls the store makes to the backend. *)
Inductive Call : Type :=
| CGetItem (key : string)
| CGetItemAsync (key : string)
| CSetItem (key value : string)
| CSetItemAsync (key value : string)
| CDeleteItemAsync (key : string) (options : option SecureStoreOptions).

(** The one closure the store hands to [setTimeout]:
    [async () => await SecureStore.deleteItemAsync(key)]. *)
Inductive Callback : Type :=
| DeleteItemLater (key : string).

Record Timer : Type := {
  due : nat;
  callback : Callback
}.

(** The world a call runs in: the entries the backend holds, the timers
    that have not fired, the clock in milliseconds, and the device: which
    backend calls raise on it, whether it has secure biometrics, whether
    the backend is available. *)
Record World : Type := {
  items : gmap string string;
  timers : list Timer;
  clock : nat;
  raises : Call -> bool;
  biometric : bool;
  available : bool
}.

Definition with_items (w : World) (m : gmap string string) : World :=
  {| items := m; timers := timers w; clock := clock w;
     raises := raises w; biometric := biometric w; available := available w |}.

Definition with_timers (w : World) (ts : list Timer) : World :=
  {| items := items w; timers := ts; clock := clock w;
     raises := raises w; biometric := biometric w; available := available w |}.

Definition with_clock (w : World) (t : nat) : World :=
  {| items := items w; timers := timers w; clock := t;
     raises := raises w; biometric := biometric w; available := available w |}.

Inductive Completion (A : Type) : Type :=
| Normal (a : A)
| Throw (e : Exn).
Arguments Normal {A} a.
Arguments Throw {A} e.

(** A synchronous call, or an asynchronous one that is awaited. *)
Definition M (A : Type) : Type := World -> Completion A * World.

Definition ret {A} (a : A) : M A := fun w => (Normal a, w).

Definition throw {A} (e : Exn) : M A := fun w => (Throw e, w).

Definition bind {A B} (m : M A) (k : A -> M B) : M B :=
  fun w =>
    match m w with
    | (Normal a, w') => k a w'
    | (Throw e, w') => (Throw e, w')
    end.

(** [try { body } catch { handler }]. *)
Definition try_catch {A} (body : M A) (handler : M A) : M A :=
  fun w =>
    match body w with
    | (Normal a, w') => (Normal a, w')
    | (Throw _, w') => handler w'
    end.

(** A pure computation that may throw, run inside a call. *)
Definition lift {A} (c : Completion A) : M A := fun w => (c, w).

(** [setTimeout(callback, delay)]: a negative delay counts as zero. *)
Definition setTimeout (cb : Callback) (delay : Z) : M unit :=
  fun w =>
    (Normal tt,
     with_timers w (timers w ++ [ {| due := clock w + Z.to_nat delay; callback := cb |} ])).

End Eff.

Declare Scope eff_scope.
Delimit Scope eff_scope with eff.
Notation "x <- c1 ;; c2" := (Eff.bind c1 (fun x => c2))
  (at level 100, c1 at next level, right associativity) : eff_scope.
Notation "c1 ;;; c2" := (Eff.bind c1 (fun _ => c2))
  (at level 100, right associativity) : eff_scope.

(* ===================================================================== *)
(** * The backend: expo-secure-store *)
(* ===================================================================== *)

Module SecureStore.
Import Eff.

(** [getItem(key)]: the stored string, or [null] ([None]). *)
Definition getItem (key : string) : M (option string) :=
  fun w =>
    if raises w (CGetItem key) then (Throw SecureStoreError, w)
    else (Normal (items w !! key), w).

Definition getItemAsync (key : string) : M (option string) :=
  fun w =>
    if raises w (CGetItemAsync key) then (Throw SecureStoreError, w)
    else (Normal (items w !! key), w).

(** [setItem(key, value)].  The backend stores strings only: handed the
    value [undefined] ([None]) it raises. *)
Definition setItem (key : string) (value : option string) : M unit :=
  fun w =>
    match value with
    | None => (Throw SecureStoreError, w)
    | Some s =>
        if raises w (CSetItem key s) then (Throw SecureStoreError, w)
        else (Normal tt, with_items w (<[key := s]> (items w)))
    end.

Definition setItemAsync (key : string) (value : option string) : M unit :=
  fun w =>
    match value with
    | None => (Throw SecureStoreError, w)
    | Some s =>
        if raises w (CSetItemAsync key s) then (Throw SecureStoreError, w)
        else (Normal tt, with_items w (<[key := s]> (items w)))
    end.

Definition deleteItemAsync (key : string) (options : option SecureStoreOptions) : M unit :=
  fun w =>
    if raises w (CDeleteItemAsync key options) then (Throw SecureStoreError, w)
    else (Normal tt, with_items w (delete key (items w))).

(** The capability check.  The backend exports it as a function,
    [canUseBiometricAuthentication(): boolean], to be called for its
    answer. *)
Definition canUseBiometricAuthentication : M bool :=
  fun w => (Normal (biometric w), w).

Definition isAvailableAsync : M bool :=
  fun w => (Normal (available w), w).

End SecureStore.

(* ===================================================================== *)
(** * The event loop *)
(* ===================================================================== *)

Module EventLoop.
Import Eff.

(** Runs a timer's callback.  Nobody awaits it: a rejection is dropped. *)
Definition run_callback (cb : Callback) (w : World) : World :=
  match cb with
  | DeleteItemLater key => snd (SecureStore.deleteItemAsync key None w)
  end.

Definition fire (w : World) (t : Timer) : World := run_callback (callback t) w.

Definition is_due (now : nat) (t : Timer) : bool := (due t <=? now)%nat.

(** [elapsed] milliseconds pass and the loop runs: every timer that is due
    fires once, in the order it was set, and leaves the queue. *)
Definition advance (elapsed : nat) (w : World) : World :=
  let now := (clock w + elapsed)%nat in
  let fired := List.filter (is_due now) (timers w) in
  let pending := List.filter (fun t => negb (is_due now t)) (timers w) in
  fold_left fire fired (with_timers (with_clock w now) pending).

End EventLoop.

(* ===================================================================== *)
(** * The schema collaborator: zod *)
(* ===================================================================== *)

Module Zod.
Import JS.

Inductive SafeParseReturnType (T : Type) : Type :=
| ParseSuccess (data : T)
| ParseFailure.
Arguments ParseSuccess {T} data.
Arguments ParseFailure {T}.

(** A schema is its [safeParse]. *)
Record ZodSchema (T : Type) : Type := {
  safeParse : JSValue -> SafeParseReturnType T
}.
Arguments safeParse {T} _ _.

(** [z.string()], [z.number()] and [z.boolean()]: the value is accepted,
    unchanged, when it has the type.  [z.number()] refuses [NaN]. *)
Definition z_string : ZodSchema JSValue :=
  {| safeParse := fun v => match v with JStr _ => ParseSuccess v | _ => ParseFailure end |}.

Definition z_number : ZodSchema JSValue :=
  {| safeParse := fun v =>
       match v with
       | JNum NNaN => ParseFailure
       | JNum _ => ParseSuccess v
       | _ => ParseFailure
       end |}.

Definition z_boolean : ZodSchema JSValue :=
  {| safeParse := fun v => match v with JBool _ => ParseSuccess v | _ => ParseFailure end |}.

(** [z.array(z.undefined())]. *)
Definition z_array_of_undefined : ZodSchema JSValue :=
  {| safeParse := fun v =>
       match v with
       | JArr elems =>
           if forallb (fun e => match e with JUndefined => true | _ => false end) elems
           then ParseSuccess v else ParseFailure
       | _ => ParseFailure
       end |}.

(** [z.array(z.any())]. *)
Definition z_array_of_any : ZodSchema JSValue :=
  {| safeParse := fun v => match v with JArr _ => ParseSuccess v | _ => ParseFailure end |}.

End Zod.

(* ===================================================================== *)
(** * The class [TypeSafeStore] (src/lib/TypeSafeStore.ts) *)
(* ===================================================================== *)

Module TypeSafeStore.
Import JS Eff Zod.
Local Open Scope eff_scope.

(** An instance: its one field, the optional namespace. *)
Record t : Type := { namespace : option string }.

(** [constructor(namespace?)]: the field is set only when the argument is
    truthy. *)
Definition constructor (namespace : option string) : t :=
  match namespace with
  | Some ns => if truthy ns then {| namespace := Some ns |} else {| namespace := None |}
  | None => {| namespace := None |}
  end.

(** [JSON.parse] as the method calls it: it returns or throws. *)
Definition JSON_parse (text : string) : Completion JSValue :=
  match JS.JSON_parse text with
  | Some v => Normal v
  | None => Throw SyntaxError
  end.

Definition isValidJson (value : string) : bool :=
  match JSON_parse value with
  | Normal _ => true
  | Throw _ => false
  end.

Definition getNamespacedKey (this : t) (key : string) : string :=
  match namespace this with
  | Some ns => if truthy ns then ns ++ ":" ++ key else key
  | None => key
  end.

Definition getNamespace (this : t) : option string := namespace this.

(** [setNamespace(namespace)]: the result and the instance after the
    call.  The argument is whatever the caller passes at run time; the
    test [typeof namespace === 'string'] holds for the strings [JStr ns]
    and for nothing else. *)
Definition setNamespace (this : t) (namespace : JSValue) : bool * t :=
  match namespace with
  | JStr ns => (true, {| TypeSafeStore.namespace := Some ns |})
  | _ => (false, this)
  end.

Definition isAvailableAsync : M bool := SecureStore.isAvailableAsync.

Record Stored : Type := {
  key : string;
  value : option string
}.

Definition setFn (this : t) (key : string) (value : JSValue) : Stored :=
  let namespacedKey := getNamespacedKey this key in
  let isPrimitive :=
    String.eqb (typeof value) "string" || String.eqb (typeof value) "number"
    || String.eqb (typeof value) "boolean" in
  {| TypeSafeStore.key := namespacedKey;
     TypeSafeStore.value := if isPrimitive then Some (ToString value) else JSON_stringify value |}.

Definition set (this : t) (key : string) (value : JSValue) : M bool :=
  let toStore := setFn this key value in
  SecureStore.setItem (TypeSafeStore.key toStore) (TypeSafeStore.value toStore) ;;;
  ret true.

Definition setAsync (this : t) (key : string) (value : JSValue) : M bool :=
  let toStore := setFn this key value in
  SecureStore.setItemAsync (TypeSafeStore.key toStore) (TypeSafeStore.value toStore) ;;;
  ret true.

Definition setWithExpiration (this : t) (key : string) (value : JSValue) (ttl : Z) : M unit :=
  let toStore := setFn this key value in
  SecureStore.setItemAsync (TypeSafeStore.key toStore) (TypeSafeStore.value toStore) ;;;
  setTimeout (DeleteItemLater (TypeSafeStore.key toStore)) ttl.

Definition get {T} (this : t) (key : string) (fallback : T) (schema : ZodSchema T) : M T :=
  let namespacedKey := getNamespacedKey this key in
  item <- SecureStore.getItem namespacedKey ;;
  match item with
  | None => ret fallback
  | Some item =>
      parsed <- (if isValidJson item then lift (JSON_parse item) else ret (JStr item)) ;;
      let result := safeParse schema parsed in
      ret (match result with
           | ParseSuccess data => data
           | ParseFailure => fallback
           end)
  end.

Definition getAsync {T} (this : t) (key : string) (fallback : T) (schema : ZodSchema T) : M T :=
  let namespacedKey := getNamespacedKey this key in
  item <- SecureStore.getItemAsync namespacedKey ;;
  match item with
  | None => ret fallback
  | Some item =>
      parsed <- (if isValidJson item then lift (JSON_parse item) else ret (JStr item)) ;;
      let result := safeParse schema parsed in
      ret (match result with
           | ParseSuccess data => data
           | ParseFailure => fallback
           end)
  end.

Definition removeAsync (this : t) (key : string) (options : option SecureStoreOptions) : M bool :=
  try_catch
    (let namespacedKey := getNamespacedKey this key in
     SecureStore.deleteItemAsync namespacedKey options ;;;
     ret true)
    (ret false).

(** The method returns the backend's function; it does not call it. *)
Definition canUseBiometricAuthentication (this : t) : M (M bool) :=
  ret SecureStore.canUseBiometricAuthentication.

Definition exists_ (this : t) (key : string) : M bool :=
  let namespacedKey := getNamespacedKey this key in
  item <- SecureStore.getItem namespacedKey ;;
  ret (match item with Some _ => true | None => false end).

Definition existsAsync (this : t) (key : string) : M bool :=
  let namespacedKey := getNamespacedKey this key in
  result <- SecureStore.getItemAsync namespacedKey ;;
  ret (match result with Some _ => true | None => false end).

End TypeSafeStore.

(* ===================================================================== *)
(** * The console *)
(* ===================================================================== *)

Module Console.

(** The lines written to the console so far. *)
Definition Log : Type := list string.

(** A call that may also write to the console. *)
Definition MC (A : Type) : Type := Log -> Eff.M (A * Log).

(** [console.warn(message)]. *)
Definition warn (message : string) : MC unit :=
  fun log => Eff.ret (tt, (log ++ [message])%list).

End Console.

(* ===================================================================== *)
(** * The module-level API (src/lib/index.ts) *)
(* ===================================================================== *)

Module Index.
Import JS Eff Zod.

Definition defaultStore : TypeSafeStore.t := TypeSafeStore.constructor None.

Definition get {T} (key : string) (fallback : T) (schema : ZodSchema T) : M T :=
  TypeSafeStore.get defaultStore key fallback schema.

Definition getAsync {T} (key : string) (fallback : T) (schema : ZodSchema T) : M T :=
  TypeSafeStore.getAsync defaultStore key fallback schema.

Definition set (key : string) (value : JSValue) : M bool :=
  TypeSafeStore.set defaultStore key value.

Definition setAsync (key : string) (value : JSValue) : M bool :=
  TypeSafeStore.setAsync defaultStore key value.

Definition setWithExpiration (key : string) (value : JSValue) (ttl : Z) : M unit :=
  TypeSafeStore.setWithExpiration defaultStore key value ttl.

Definition exists_ (key : string) : M bool := TypeSafeStore.exists_ defaultStore key.

Definition existsAsync (key : string) : M bool := TypeSafeStore.existsAsync defaultStore key.

Definition remove (key : string) (options : option SecureStoreOptions) : M bool :=
  TypeSafeStore.removeAsync defaultStore key options.

(** [clear()]: a warning, and the result [undefined]. *)
Definition clear : Console.MC unit :=
  Console.warn "Clear method is not supported by expo-secure-store".

(** [length()]: a warning, and the result [0]. *)
Definition length : Console.MC JSNumber :=
  fun log =>
    Eff.bind (Console.warn "Length method is not supported by expo-secure-store" log)
      (fun r => Eff.ret (NInt 0, snd r)).

End Index.

(* ===================================================================== *)
(** * The read contract in the specification's words *)
(* ===================================================================== *)

Module Spec.
Import JS Eff Zod.

(** "Attempt JSON-parse; on parse failure treat the raw string as the
    candidate value." *)
Definition candidate (stored : string) : JSValue :=
  match JS.JSON_parse stored with
  | Some v => v
  | None => JStr stored
  end.

(** "Validate the candidate against schema; return the validated value on
    success, else fallback." *)
Definition validated {T} (schema : ZodSchema T) (fallback : T) (c : JSValue) : T :=
  match safeParse schema c with
  | ParseSuccess data => data
  | ParseFailure => fallback
  end.

(** "Read the namespaced key; if absent, return fallback." *)
Definition read {T} (entry : option string) (fallback : T) (schema : ZodSchema T) : T :=
  match entry with
  | None => fallback
  | Some stored => validated schema fallback (candidate stored)
  end.

(** The primitives that [String] writes as a text decoding to themselves:
    the booleans, the finite numbers, and the strings that are not
    themselves JSON texts. *)
Definition read_back_as_written (v : JSValue) : bool :=
  match v with
  | JBool _ => true
  | JNum x => is_finite x && wf_number x
  | JStr s =>
      match JS.JSON_parse s with
      | None => true
      | Some _ => false
      end
  | _ => false
  end.

End Spec.

(* ===================================================================== *)
(** * Worlds used in the examples *)
(* ===================================================================== *)

Module Examples.
Import JS Eff.

(** A device on which no backend call raises. *)
Definition quiet (entries : gmap string string) (bio : bool) : World :=
  {| items := entries; timers := []; clock := 0;
     raises := fun _ => false; biometric := bio; available := true |}.

(** A device on which every deletion raises. *)
Definition locked (entries : gmap string string) : World :=
  {| items := entries; timers := []; clock := 0;
     raises := fun c => match c with CDeleteItemAsync _ _ => true | _ => false end;
     biometric := false; available := true |}.

(** The string of three characters: a quote, [a], a quote. *)
Definition quoted_a : string := String dquote (String "a" (String dquote "")).

End Examples.

(* ===================================================================== *)
(** * Sequences of calls made through one store *)
(* ===================================================================== *)

Module Trace.
Import JS Eff.

(** A call that can change the backend, or time passing. *)
Inductive Action : Type :=
| DoSet (key : string) (value : JSValue)
| DoSetAsync (key : string) (value : JSValue)
| DoSetWithExpiration (key : string) (value : JSValue) (ttl : Z)
| DoRemoveAsync (key : string) (options : option SecureStoreOptions)
| Elapse (milliseconds : nat).

(** The world after the action, whether the call completed or threw. *)
Definition perform (this : TypeSafeStore.t) (a : Action) (w : World) : World :=
  match a with
  | DoSet key value => snd (TypeSafeStore.set this key value w)
  | DoSetAsync key value => snd (TypeSafeStore.setAsync this key value w)
  | DoSetWithExpiration key value ttl => snd (TypeSafeStore.setWithExpiration this key value ttl w)
  | DoRemoveAsync key options => snd (TypeSafeStore.removeAsync this key options w)
  | Elapse ms => EventLoop.advance ms w
  end.

Definition perform_all (this : TypeSafeStore.t) (actions : list Action) (w : World) : World :=
  fold_left (fun w' a => perform this a w') actions w.

End Trace.

(* ===================================================================== *)
(** * Backend keys *)
(* ===================================================================== *)

Module Keys.
Import JS.

(** The namespace a store really uses: none when the field is unset or
    holds the empty string. *)
Definition effective (this : TypeSafeStore.t) : option string :=
  match TypeSafeStore.namespace this with
  | Some ns => if truthy ns then Some ns else None
  | None => None
  end.

(** What the store puts in front of every key. *)
Definition prefix (this : TypeSafeStore.t) : string :=
  match effective this with
  | Some ns => ns ++ ":"
  | None => ""
  end.


(** The characters a JSON text can start with: white space, a digit, a
    minus sign, a quote, an opening bracket or brace, and the first
    letters of [true], [false] and [null]. *)
Definition starts_json (c : ascii) : bool :=
  is_ws c || is_digit c || Ascii.eqb c "-" || Ascii.eqb c dquote
  || Ascii.eqb c "[" || Ascii.eqb c "{"
  || Ascii.eqb c "t" || Ascii.eqb c "f" || Ascii.eqb c "n".

(** A string that is empty or starts with none of them. *)
Definition plain_text (s : string) : bool :=
  match s with
  | EmptyString => true
  | String c _ => negb (starts_json c)
  end.

(** The values that [set] followed by [get] gives back: the primitives
    read back as written, and the representable values that are not
    primitives. *)
Definition round_trips (v : JSValue) : bool :=
  Spec.read_back_as_written v || (negb (is_primitive v) && representable v).

(** A timer set through the store [this]: its callback deletes one of the
    store's backend keys. *)
Definition own_timer (this : TypeSafeStore.t) (t : Eff.Timer) : Prop :=
  exists k, Eff.callback t = Eff.DeleteItemLater (TypeSafeStore.getNamespacedKey this k).

End Keys.

(* ===================================================================== *)
(** * More devices for the examples *)
(* ===================================================================== *)

Module Devices.
Import JS Eff.

(** A device on which every write raises. *)
Definition read_only (entries : gmap string string) : World :=
  {| items := entries; timers := []; clock := 0;
     raises := fun c => match c with
                        | CSetItem _ _ | CSetItemAsync _ _ => true
                        | _ => false
                        end;
     biometric := false; available := true |}.

(** A device on which every read raises. *)
Definition unreadable (entries : gmap string string) : World :=
  {| items := entries; timers := []; clock := 0;
     raises := fun c => match c with
                        | CGetItem _ | CGetItemAsync _ => true
                        | _ => false
                        end;
     biometric := false; available := true |}.

End Devices.

(* ===================================================================== *)
(** * Key formation *)
(* ===================================================================== *)

Import JS Eff Zod.

Lemma typeof_string_iff (v : JSValue) :
  typeof v = "string" <-> exists s, v = JStr s.
Proof.
  split.
  - destruct v; simpl; intros H; try discriminate. eauto.
  - intros [s ->]. reflexivity.
Qed.

Lemma getNamespacedKey_unset (key : string) :
  TypeSafeStore.getNamespacedKey {| TypeSafeStore.namespace := None |} key = key.
Proof. reflexivity. Qed.

Lemma getNamespacedKey_empty (key : string) :
  TypeSafeStore.getNamespacedKey {| TypeSafeStore.namespace := Some "" |} key = key.
Proof. reflexivity. Qed.

Lemma getNamespacedKey_prefixed (c : ascii) (ns key : string) :
  TypeSafeStore.getNamespacedKey {| TypeSafeStore.namespace := Some (String c ns) |} key
  = String c ns ++ ":" ++ key.
Proof. reflexivity. Qed.

(* ===================================================================== *)
(** * Reading *)
(* ===================================================================== *)

Lemma parsed_is_candidate (item : string) (w : World) :
  (if TypeSafeStore.isValidJson item
   then lift (TypeSafeStore.JSON_parse item)
   else ret (JStr item)) w
  = (Normal (Spec.candidate item), w).
Proof.
  unfold TypeSafeStore.isValidJson, TypeSafeStore.JSON_parse, Spec.candidate, lift, ret.
  destruct (JS.JSON_parse item); reflexivity.
Qed.

Lemma get_reads {T} (this : TypeSafeStore.t) (key : string) (fallback : T)
    (schema : ZodSchema T) (w : World) :
  raises w (CGetItem (TypeSafeStore.getNamespacedKey this key)) = false ->
  TypeSafeStore.get this key fallback schema w
  = (Normal (Spec.read (items w !! TypeSafeStore.getNamespacedKey this key) fallback schema), w).
Proof.
  intros Hquiet.
  unfold TypeSafeStore.get, bind, SecureStore.getItem. rewrite Hquiet.
  destruct (items w !! _) as [item|]; [|reflexivity].
  rewrite parsed_is_candidate. reflexivity.
Qed.

Lemma getAsync_reads {T} (this : TypeSafeStore.t) (key : string) (fallback : T)
    (schema : ZodSchema T) (w : World) :
  raises w (CGetItemAsync (TypeSafeStore.getNamespacedKey this key)) = false ->
  TypeSafeStore.getAsync this key fallback schema w
  = (Normal (Spec.read (items w !! TypeSafeStore.getNamespacedKey this key) fallback schema), w).
Proof.
  intros Hquiet.
  unfold TypeSafeStore.getAsync, bind, SecureStore.getItemAsync. rewrite Hquiet.
  destruct (items w !! _) as [item|]; [|reflexivity].
  rewrite parsed_is_candidate. reflexivity.
Qed.

(** C1. For every key, fallback and schema, when the backend read does not
    raise, [get] and [getAsync] complete normally, leave the world as it
    was, and return: the fallback when the namespaced key is absent;
    otherwise the schema's data for the candidate (the JSON-parsed string
    when it is valid JSON, the raw string when it is not) on validation
    success, and the fallback on validation failure. *)
Theorem C1_get_validates_or_falls_back {T} (this : TypeSafeStore.t) (key : string)
    (fallback : T) (schema : ZodSchema T) (w : World) :
  raises w (CGetItem (TypeSafeStore.getNamespacedKey this key)) = false ->
  raises w (CGetItemAsync (TypeSafeStore.getNamespacedKey this key)) = false ->
  let entry := items w !! TypeSafeStore.getNamespacedKey this key in
  let returned :=
    match entry with
    | None => fallback
    | Some stored =>
        let candidate :=
          match JS.JSON_parse stored with
          | Some parsed => parsed
          | None => JStr stored
          end in
        match safeParse schema candidate with
        | ParseSuccess data => data
        | ParseFailure => fallback
        end
    end in
  TypeSafeStore.get this key fallback schema w = (Normal returned, w)
  /\ TypeSafeStore.getAsync this key fallback schema w = (Normal returned, w).
Proof.
  intros Hsync Hasync entry returned.
  split.
  - rewrite get_reads by exact Hsync. reflexivity.
  - rewrite getAsync_reads by exact Hasync. reflexivity.
Qed.

(* ===================================================================== *)
(** * What the calls do to the world *)
(* ===================================================================== *)



Lemma deleteItemAsync_world (key : string) (options : option SecureStoreOptions) (w : World) :
  let w' := snd (SecureStore.deleteItemAsync key options w) in
  raises w' = raises w /\ timers w' = timers w /\ clock w' = clock w
  /\ (items w' = items w \/ items w' = delete key (items w)).
Proof.
  unfold SecureStore.deleteItemAsync.
  destruct (raises w (CDeleteItemAsync key options)); simpl; tauto.
Qed.


Lemma absent_after_delete (m m' : gmap string string) (deleted key : string) :
  (m' = m \/ m' = delete deleted m) -> m !! key = None -> m' !! key = None.
Proof.
  intros [-> | ->] Habs; [exact Habs|].
  destruct (decide (deleted = key)) as [->|Hne].
  - apply lookup_delete_eq.
  - rewrite lookup_delete_ne by exact Hne. exact Habs.
Qed.

(** ** Timers firing *)

Lemma fire_world (w : World) (t : Timer) :
  raises (EventLoop.fire w t) = raises w /\ timers (EventLoop.fire w t) = timers w
  /\ clock (EventLoop.fire w t) = clock w
  /\ (forall key, items w !! key = None -> items (EventLoop.fire w t) !! key = None).
Proof.
  unfold EventLoop.fire, EventLoop.run_callback. destruct (callback t) as [k].
  pose proof (deleteItemAsync_world k None w) as (Hr & Ht & Hc & Hi).
  repeat split; try assumption.
  intros key. apply absent_after_delete with (deleted := k). exact Hi.
Qed.

Lemma fire_all_world (ts : list Timer) (w : World) :
  let w' := fold_left EventLoop.fire ts w in
  raises w' = raises w /\ timers w' = timers w /\ clock w' = clock w
  /\ (forall key, items w !! key = None -> items w' !! key = None).
Proof.
  revert w. induction ts as [|t ts IH]; intros w; simpl.
  - repeat split; auto.
  - destruct (IH (EventLoop.fire w t)) as (Hr & Ht & Hc & Hi).
    destruct (fire_world w t) as (Hr' & Ht' & Hc' & Hi').
    repeat split; try congruence. intros key Habs. apply Hi, Hi', Habs.
Qed.

(** Once the deletion of [key] has fired, and did not raise, the key is
    gone, whatever else fires. *)
Lemma fire_all_deletes (ts : list Timer) (w : World) (key : string) (d : nat) :
  In {| due := d; callback := DeleteItemLater key |} ts ->
  raises w (CDeleteItemAsync key None) = false ->
  items (fold_left EventLoop.fire ts w) !! key = None.
Proof.
  revert w. induction ts as [|t ts IH]; intros w Hin Hquiet; [destruct Hin|].
  simpl. destruct Hin as [-> | Hin].
  - apply fire_all_world.
    unfold EventLoop.fire, EventLoop.run_callback, SecureStore.deleteItemAsync. simpl.
    rewrite Hquiet. simpl. apply lookup_delete_eq.
  - apply IH; [exact Hin|].
    destruct (fire_world w t) as (Hr & _). rewrite Hr. exact Hquiet.
Qed.

Lemma advance_unfold (elapsed : nat) (w : World) :
  EventLoop.advance elapsed w
  = fold_left EventLoop.fire
      (List.filter (EventLoop.is_due (clock w + elapsed)) (timers w))
      (with_timers (with_clock w (clock w + elapsed))
         (List.filter (fun t => negb (EventLoop.is_due (clock w + elapsed) t)) (timers w))).
Proof. reflexivity. Qed.

Lemma advance_world (elapsed : nat) (w : World) :
  let w' := EventLoop.advance elapsed w in
  raises w' = raises w
  /\ clock w' = (clock w + elapsed)%nat
  /\ timers w' = List.filter (fun t => negb (EventLoop.is_due (clock w + elapsed) t)) (timers w)
  /\ (forall key, items w !! key = None -> items w' !! key = None).
Proof.
  simpl. rewrite advance_unfold.
  match goal with |- context [fold_left EventLoop.fire ?ts ?w0] =>
    destruct (fire_all_world ts w0) as (Hr & Ht & Hc & Hi) end.
  repeat split; try assumption.
Qed.

(** ** Actions of a store leave alone the keys it cannot form *)



Lemma existsAsync_reads (this : TypeSafeStore.t) (key : string) (w : World) :
  raises w (CGetItemAsync (TypeSafeStore.getNamespacedKey this key)) = false ->
  TypeSafeStore.existsAsync this key w
  = (Normal (match items w !! TypeSafeStore.getNamespacedKey this key with
             | Some _ => true
             | None => false
             end), w).
Proof.
  intros Hquiet. unfold TypeSafeStore.existsAsync, bind, SecureStore.getItemAsync.
  rewrite Hquiet. reflexivity.
Qed.

Lemma exists_reads (this : TypeSafeStore.t) (key : string) (w : World) :
  raises w (CGetItem (TypeSafeStore.getNamespacedKey this key)) = false ->
  TypeSafeStore.exists_ this key w
  = (Normal (match items w !! TypeSafeStore.getNamespacedKey this key with
             | Some _ => true
             | None => false
             end), w).
Proof.
  intros Hquiet. unfold TypeSafeStore.exists_, bind, SecureStore.getItem.
  rewrite Hquiet. reflexivity.
Qed.

(** ** Writing, then reading *)

Lemma set_writes (this : TypeSafeStore.t) (key : string) (value : JSValue)
    (stored : string) (w : World) :
  TypeSafeStore.value (TypeSafeStore.setFn this key value) = Some stored ->
  raises w (CSetItem (TypeSafeStore.getNamespacedKey this key) stored) = false ->
  TypeSafeStore.set this key value w
  = (Normal true,
     with_items w (<[TypeSafeStore.getNamespacedKey this key := stored]> (items w))).
Proof.
  intros Hstored Hquiet. unfold TypeSafeStore.set, bind, SecureStore.setItem.
  rewrite Hstored. simpl. rewrite Hquiet. reflexivity.
Qed.

Lemma setAsync_writes (this : TypeSafeStore.t) (key : string) (value : JSValue)
    (stored : string) (w : World) :
  TypeSafeStore.value (TypeSafeStore.setFn this key value) = Some stored ->
  raises w (CSetItemAsync (TypeSafeStore.getNamespacedKey this key) stored) = false ->
  TypeSafeStore.setAsync this key value w
  = (Normal true,
     with_items w (<[TypeSafeStore.getNamespacedKey this key := stored]> (items w))).
Proof.
  intros Hstored Hquiet. unfold TypeSafeStore.setAsync, bind, SecureStore.setItemAsync.
  rewrite Hstored. simpl. rewrite Hquiet. reflexivity.
Qed.

Lemma setWithExpiration_writes (this : TypeSafeStore.t) (key : string) (value : JSValue)
    (ttl : Z) (stored : string) (w : World) :
  TypeSafeStore.value (TypeSafeStore.setFn this key value) = Some stored ->
  raises w (CSetItemAsync (TypeSafeStore.getNamespacedKey this key) stored) = false ->
  TypeSafeStore.setWithExpiration this key value ttl w
  = (Normal tt,
     with_timers
       (with_items w (<[TypeSafeStore.getNamespacedKey this key := stored]> (items w)))
       (timers w ++ [ {| due := clock w + Z.to_nat ttl;
                         callback := DeleteItemLater (TypeSafeStore.getNamespacedKey this key) |} ])).
Proof.
  intros Hstored Hquiet.
  unfold TypeSafeStore.setWithExpiration, bind, SecureStore.setItemAsync, setTimeout.
  rewrite Hstored. simpl. rewrite Hquiet. reflexivity.
Qed.

(** After a write that completed, a read validates the candidate decoded
    from the string written. *)
Lemma set_then_get {T} (this : TypeSafeStore.t) (key : string) (value : JSValue)
    (stored : string) (fallback : T) (schema : ZodSchema T) (w : World) :
  TypeSafeStore.value (TypeSafeStore.setFn this key value) = Some stored ->
  raises w (CSetItem (TypeSafeStore.getNamespacedKey this key) stored) = false ->
  raises w (CGetItem (TypeSafeStore.getNamespacedKey this key)) = false ->
  fst (TypeSafeStore.set this key value w) = Normal true
  /\ fst (TypeSafeStore.get this key fallback schema (snd (TypeSafeStore.set this key value w)))
     = Normal (Spec.validated schema fallback (Spec.candidate stored)).
Proof.
  intros Hstored Hset Hget.
  rewrite (set_writes this key value stored w Hstored Hset). simpl.
  split; [reflexivity|].
  rewrite get_reads by exact Hget. simpl. rewrite lookup_insert_eq. reflexivity.
Qed.

(* ===================================================================== *)
(** * The capability probe *)
(* ===================================================================== *)

(** C3. On every device the method completes with the backend's capability
    function itself, which it does not call: the value returned is the
    same on a device with secure biometrics and on one without, while the
    function, once called, answers [true] on the first and [false] on the
    second.  The boolean the documentation promises is never returned. *)
Theorem C3_probe_returned_uncalled (this : TypeSafeStore.t) (w : World) :
  TypeSafeStore.canUseBiometricAuthentication this w
  = (Normal SecureStore.canUseBiometricAuthentication, w)
  /\ fst (TypeSafeStore.canUseBiometricAuthentication this (Examples.quiet ∅ true))
     = fst (TypeSafeStore.canUseBiometricAuthentication this (Examples.quiet ∅ false))
  /\ fst (SecureStore.canUseBiometricAuthentication (Examples.quiet ∅ true)) = Normal true
  /\ fst (SecureStore.canUseBiometricAuthentication (Examples.quiet ∅ false)) = Normal false.
Proof. repeat split. Qed.

(* ===================================================================== *)
(** * The namespace *)
(* ===================================================================== *)

(** C4. [setNamespace(ns)] returns [true] exactly when [ns] is a string,
    and then the namespace is that string; for any other argument it
    returns [false], the instance is unchanged and [getNamespace()] gives
    what it gave before.  So it is for [setNamespace(123)]. *)
Theorem C4_setNamespace_strings_only (this : TypeSafeStore.t) (ns : JSValue) :
  (fst (TypeSafeStore.setNamespace this ns) = true <-> typeof ns = "string")
  /\ match ns with
     | JStr s =>
         TypeSafeStore.setNamespace this ns = (true, {| TypeSafeStore.namespace := Some s |})
         /\ TypeSafeStore.getNamespace (snd (TypeSafeStore.setNamespace this ns)) = Some s
     | _ =>
         TypeSafeStore.setNamespace this ns = (false, this)
         /\ TypeSafeStore.getNamespace (snd (TypeSafeStore.setNamespace this ns))
            = TypeSafeStore.getNamespace this
     end
  /\ TypeSafeStore.setNamespace this (JNum (NInt 123)) = (false, this).
Proof.
  split; [|split; [|reflexivity]].
  - destruct ns; simpl; split; intros H; try discriminate; reflexivity.
  - destruct ns; simpl; split; reflexivity.
Qed.

(** C9. [setNamespace] with the empty string succeeds and the namespace
    reads back as the empty string, yet every key is then used bare, as
    by the default store; a store constructed with the empty string has
    no namespace at all.  Every call through such a store is the same
    call through the default store: the two collide on every key. *)
Theorem C9_empty_namespace_is_no_prefix (this : TypeSafeStore.t) :
  let emptied := snd (TypeSafeStore.setNamespace this (JStr "")) in
  fst (TypeSafeStore.setNamespace this (JStr "")) = true
  /\ TypeSafeStore.getNamespace emptied = Some ""
  /\ TypeSafeStore.constructor (Some "") = TypeSafeStore.constructor None
  /\ TypeSafeStore.getNamespace (TypeSafeStore.constructor (Some "")) = None
  /\ (forall key,
        TypeSafeStore.getNamespacedKey emptied key = key
        /\ TypeSafeStore.getNamespacedKey (TypeSafeStore.constructor (Some "")) key = key
        /\ TypeSafeStore.getNamespacedKey Index.defaultStore key = key)
  /\ (forall key value, TypeSafeStore.set emptied key value = Index.set key value)
  /\ (forall key value, TypeSafeStore.setAsync emptied key value = Index.setAsync key value)
  /\ (forall key value ttl,
        TypeSafeStore.setWithExpiration emptied key value ttl
        = Index.setWithExpiration key value ttl)
  /\ (forall T key (fallback : T) schema,
        TypeSafeStore.get emptied key fallback schema = Index.get key fallback schema
        /\ TypeSafeStore.getAsync emptied key fallback schema
           = Index.getAsync key fallback schema)
  /\ (forall key,
        TypeSafeStore.exists_ emptied key = Index.exists_ key
        /\ TypeSafeStore.existsAsync emptied key = Index.existsAsync key)
  /\ (forall key options,
        TypeSafeStore.removeAsync emptied key options = Index.remove key options).
Proof. simpl. repeat split. Qed.

(** C10. The store with namespace ["a"] and key ["b:k"] and the store with
    namespace ["a:b"] and key ["k"] are different stores with different
    keys that form the same backend key ["a:b:k"]: key formation is not
    injective.  Every call through one is the same call through the
    other, so each reads, overwrites and removes the other's entry. *)
Theorem C10_separator_in_key_collides :
  let s1 := TypeSafeStore.constructor (Some "a") in
  let s2 := TypeSafeStore.constructor (Some "a:b") in
  s1 <> s2
  /\ TypeSafeStore.getNamespacedKey s1 "b:k" = "a:b:k"
  /\ TypeSafeStore.getNamespacedKey s2 "k" = "a:b:k"
  /\ (forall value, TypeSafeStore.set s1 "b:k" value = TypeSafeStore.set s2 "k" value)
  /\ (forall value, TypeSafeStore.setAsync s1 "b:k" value = TypeSafeStore.setAsync s2 "k" value)
  /\ (forall T (fallback : T) schema,
        TypeSafeStore.get s1 "b:k" fallback schema = TypeSafeStore.get s2 "k" fallback schema
        /\ TypeSafeStore.getAsync s1 "b:k" fallback schema
           = TypeSafeStore.getAsync s2 "k" fallback schema)
  /\ TypeSafeStore.exists_ s1 "b:k" = TypeSafeStore.exists_ s2 "k"
  /\ TypeSafeStore.existsAsync s1 "b:k" = TypeSafeStore.existsAsync s2 "k"
  /\ (forall options,
        TypeSafeStore.removeAsync s1 "b:k" options = TypeSafeStore.removeAsync s2 "k" options)
  /\ (let w := Examples.quiet ∅ false in
      fst (TypeSafeStore.get s2 "k" (JStr "none") z_string
             (snd (TypeSafeStore.set s1 "b:k" (JStr "mine") w)))
      = Normal (JStr "mine")
      /\ fst (TypeSafeStore.exists_ s1 "b:k" (snd (TypeSafeStore.set s2 "k" (JStr "theirs") w)))
         = Normal true
      /\ fst (TypeSafeStore.exists_ s1 "b:k"
                (snd (TypeSafeStore.removeAsync s2 "k" None
                        (snd (TypeSafeStore.set s1 "b:k" (JStr "mine") w)))))
         = Normal false).
Proof.
  simpl. repeat split; try discriminate.
Qed.

(* ===================================================================== *)
(** * Removal *)
(* ===================================================================== *)

(** C8. [removeAsync(key, options)] never throws.  When the backend's
    delete completes it returns [true] and the namespaced key is gone;
    when the backend's delete raises it returns [false] and nothing has
    changed.  Removing a key that is not there is the first case when the
    backend does not raise on it: the result is [true]. *)
Theorem C8_removeAsync_reports_outcome (this : TypeSafeStore.t) (key : string)
    (options : option SecureStoreOptions) (w : World) :
  let nk := TypeSafeStore.getNamespacedKey this key in
  TypeSafeStore.removeAsync this key options w
  = (if raises w (CDeleteItemAsync nk options)
     then (Normal false, w)
     else (Normal true, with_items w (delete nk (items w))))
  /\ (exists b, fst (TypeSafeStore.removeAsync this key options w) = Normal b)
  /\ items (snd (TypeSafeStore.removeAsync this key options w)) !! nk
     = (if raises w (CDeleteItemAsync nk options) then items w !! nk else None).
Proof.
  simpl.
  unfold TypeSafeStore.removeAsync, try_catch, bind, ret, SecureStore.deleteItemAsync.
  destruct (raises w _); simpl; repeat split; eauto.
  apply lookup_delete_eq.
Qed.

(* ===================================================================== *)
(** * Namespaces keep stores apart *)
(* ===================================================================== *)




(* ===================================================================== *)
(** * Expiration *)
(* ===================================================================== *)

Lemma read_ignores_timers_and_clock (u : World) (ts : list Timer) (c : nat) :
  let u' := with_timers (with_clock u c) ts in
  (forall T this key (fallback : T) schema,
     fst (TypeSafeStore.get this key fallback schema u')
     = fst (TypeSafeStore.get this key fallback schema u)
     /\ fst (TypeSafeStore.getAsync this key fallback schema u')
        = fst (TypeSafeStore.getAsync this key fallback schema u))
  /\ (forall this key,
        fst (TypeSafeStore.exists_ this key u') = fst (TypeSafeStore.exists_ this key u)
        /\ fst (TypeSafeStore.existsAsync this key u')
           = fst (TypeSafeStore.existsAsync this key u)).
Proof.
  simpl. split.
  - intros T this key fallback schema.
    unfold TypeSafeStore.get, TypeSafeStore.getAsync, bind,
      SecureStore.getItem, SecureStore.getItemAsync. simpl.
    split.
    + destruct (raises u (CGetItem _)); [reflexivity|].
      destruct (items u !! _) as [item|]; [|reflexivity].
      rewrite !parsed_is_candidate. reflexivity.
    + destruct (raises u (CGetItemAsync _)); [reflexivity|].
      destruct (items u !! _) as [item|]; [|reflexivity].
      rewrite !parsed_is_candidate. reflexivity.
  - intros this key.
    unfold TypeSafeStore.exists_, TypeSafeStore.existsAsync, bind,
      SecureStore.getItem, SecureStore.getItemAsync. simpl.
    split.
    + destruct (raises u (CGetItem _)); reflexivity.
    + destruct (raises u (CGetItemAsync _)); reflexivity.
Qed.

(** When the backend's write completes, what was written is the string
    [setFn] made, and the call did not raise. *)
Lemma setItemAsync_completed (key : string) (value : option string) (w : World) :
  fst (SecureStore.setItemAsync key value w) = Normal tt ->
  exists stored, value = Some stored /\ raises w (CSetItemAsync key stored) = false.
Proof.
  unfold SecureStore.setItemAsync. destruct value as [stored|]; [|discriminate].
  destruct (raises w (CSetItemAsync key stored)) eqn:Hr; [discriminate|].
  intros _. exists stored. split; [reflexivity|exact Hr].
Qed.

(** C7. For every key, value and ttl, on a device where the backend's
    write of the serialized value, and its read and delete of the
    namespaced key, complete: [setWithExpiration] completes; it has
    written the serialized value at the namespaced key and added one
    timer, due [ttl] milliseconds from now (at once for a negative [ttl]),
    that deletes that key; [existsAsync(key)] right after the call is
    [true]; until [ttl] has elapsed the timer stays pending; once [ttl]
    has elapsed and the loop has run, the timer has left the queue and
    [existsAsync(key)] is [false].  No read looks at the clock or at the
    timers. *)
Theorem C7_setWithExpiration_deletes_later (this : TypeSafeStore.t) (key : string)
    (value : JSValue) (ttl : Z) (w : World) :
  let nk := TypeSafeStore.getNamespacedKey this key in
  let serialized := TypeSafeStore.value (TypeSafeStore.setFn this key value) in
  let timer := {| due := clock w + Z.to_nat ttl; callback := DeleteItemLater nk |} in
  let w1 := snd (TypeSafeStore.setWithExpiration this key value ttl w) in
  fst (SecureStore.setItemAsync nk serialized w) = Normal tt ->
  raises w (CGetItemAsync nk) = false ->
  raises w (CDeleteItemAsync nk None) = false ->
  fst (TypeSafeStore.setWithExpiration this key value ttl w) = Normal tt
  /\ items w1 !! nk = serialized
  /\ (forall other, other <> nk -> items w1 !! other = items w !! other)
  /\ timers w1 = (timers w ++ [timer])%list
  /\ TypeSafeStore.existsAsync this key w1 = (Normal true, w1)
  /\ (forall elapsed, (elapsed < Z.to_nat ttl)%nat ->
        In timer (timers (EventLoop.advance elapsed w1)))
  /\ (forall elapsed, (Z.to_nat ttl <= elapsed)%nat ->
        let w2 := EventLoop.advance elapsed w1 in
        ~ In timer (timers w2)
        /\ items w2 !! nk = None
        /\ TypeSafeStore.existsAsync this key w2 = (Normal false, w2))
  /\ (forall (u : World) (ts : list Timer) (c : nat),
        let u' := with_timers (with_clock u c) ts in
        (forall T that k (fallback : T) schema,
           fst (TypeSafeStore.get that k fallback schema u')
           = fst (TypeSafeStore.get that k fallback schema u)
           /\ fst (TypeSafeStore.getAsync that k fallback schema u')
              = fst (TypeSafeStore.getAsync that k fallback schema u))
        /\ (forall that k,
              fst (TypeSafeStore.exists_ that k u') = fst (TypeSafeStore.exists_ that k u)
              /\ fst (TypeSafeStore.existsAsync that k u')
                 = fst (TypeSafeStore.existsAsync that k u))).
Proof.
  intros nk serialized timer w1 Hwrite Hget Hdel.
  destruct (setItemAsync_completed nk serialized w Hwrite) as (stored & Hstored & Hset).
  subst w1. rewrite (setWithExpiration_writes this key value ttl stored w Hstored Hset).
  fold nk. fold timer. rewrite Hstored. simpl.
  split; [reflexivity|]. split; [apply lookup_insert_eq|].
  split; [intros other Hother; apply lookup_insert_ne; congruence|].
  split; [reflexivity|].
  split; [|split; [|split; [|exact read_ignores_timers_and_clock]]].
  - rewrite existsAsync_reads by exact Hget. fold nk. simpl.
    rewrite lookup_insert_eq. reflexivity.
  - intros elapsed Hlt.
    match goal with |- In _ (timers (EventLoop.advance _ ?w0)) =>
      destruct (advance_world elapsed w0) as (_ & _ & Ht & _); rewrite Ht end.
    simpl. apply filter_In. split.
    + apply in_or_app. right. left. reflexivity.
    + unfold EventLoop.is_due. simpl. apply negb_true_iff, Nat.leb_gt. lia.
  - intros elapsed Hge.
    match goal with |- context [EventLoop.advance _ ?w0] => set (w1 := w0) end.
    destruct (advance_world elapsed w1) as (Hr & _ & Ht & _).
    assert (Hgone : items (EventLoop.advance elapsed w1) !! nk = None).
    { rewrite advance_unfold. apply fire_all_deletes with (d := (clock w + Z.to_nat ttl)%nat).
      - apply filter_In. split.
        + subst w1. simpl. apply in_or_app. right. left. reflexivity.
        + unfold EventLoop.is_due. subst w1. simpl. apply Nat.leb_le. lia.
      - exact Hdel. }
    split; [|split; [exact Hgone|]].
    + rewrite Ht. intros Hin. apply filter_In in Hin. destruct Hin as (_ & Hdue).
      unfold EventLoop.is_due in Hdue. subst w1. simpl in Hdue.
      apply negb_true_iff, Nat.leb_gt in Hdue. lia.
    + rewrite existsAsync_reads by (rewrite Hr; exact Hget). fold nk.
      rewrite Hgone. reflexivity.
Qed.

(* ===================================================================== *)
(** * JSON: what is written is read back *)
(* ===================================================================== *)

Local Arguments String.append : simpl nomatch.

(** ** Digits *)

Lemma small_digit (d : N) :
  (d < 10)%N ->
  d = 0%N \/ d = 1%N \/ d = 2%N \/ d = 3%N \/ d = 4%N \/ d = 5%N \/ d = 6%N
  \/ d = 7%N \/ d = 8%N \/ d = 9%N.
Proof. lia. Qed.

Lemma ascii_of_digit_is_digit (d : N) :
  (d < 10)%N -> is_digit (ascii_of_digit d) = true.
Proof.
  intros H. destruct (small_digit d H) as [-> | [-> | [-> | [-> | [-> | [-> | [-> | [-> | [-> | ->]]]]]]]]];
    reflexivity.
Qed.

Lemma digit_of_ascii_of_digit (d : N) :
  (d < 10)%N -> digit_of_ascii (ascii_of_digit d) = d.
Proof.
  intros H. destruct (small_digit d H) as [-> | [-> | [-> | [-> | [-> | [-> | [-> | [-> | [-> | ->]]]]]]]]];
    reflexivity.
Qed.

Lemma ascii_of_digit_zero (d : N) :
  (d < 10)%N -> ascii_of_digit d = "0"%char -> d = 0%N.
Proof.
  intros H. destruct (small_digit d H) as [-> | [-> | [-> | [-> | [-> | [-> | [-> | [-> | [-> | ->]]]]]]]]];
    intros E; try reflexivity; discriminate E.
Qed.

(** A digit is none of the characters that delimit or continue a token. *)
Lemma is_digit_cases (c : ascii) :
  is_digit c = true ->
  Ascii.eqb c "." = false /\ Ascii.eqb c "e" = false /\ Ascii.eqb c "E" = false
  /\ Ascii.eqb c "-" = false /\ Ascii.eqb c "+" = false
  /\ c = ascii_of_digit (digit_of_ascii c) /\ (digit_of_ascii c < 10)%N.
Proof.
  destruct c as [[] [] [] [] [] [] [] []]; intros H; try discriminate H;
    repeat split; reflexivity.
Qed.

Lemma app_nil_r_string (s : string) : s ++ "" = s.
Proof. induction s as [|c s IH]; simpl; [reflexivity|]. f_equal. exact IH. Qed.

Lemma app_assoc_string (a b c : string) : (a ++ b) ++ c = a ++ (b ++ c).
Proof. induction a as [|x a IH]; simpl; [reflexivity|]. f_equal. exact IH. Qed.

Lemma length_app_string (a b : string) :
  String.length (a ++ b) = (String.length a + String.length b)%nat.
Proof. induction a as [|x a IH]; simpl; [reflexivity|]. f_equal. exact IH. Qed.

Lemma all_digits_app (a b : string) :
  all_digits (a ++ b) = all_digits a && all_digits b.
Proof.
  induction a as [|x a IH]; simpl; [reflexivity|].
  rewrite IH. apply andb_assoc.
Qed.

(** Horner evaluation over a concatenation. *)
Lemma N_of_digits_app (a b : string) (acc : N) :
  N_of_digits acc (a ++ b) = N_of_digits (N_of_digits acc a) b.
Proof. revert acc. induction a as [|x a IH]; intros acc; simpl; [reflexivity|]. apply IH. Qed.

Lemma N_of_digits_shift (s : string) (acc : N) :
  N_of_digits acc s
  = (acc * 10 ^ N.of_nat (String.length s) + N_of_digits 0 s)%N.
Proof.
  revert acc. induction s as [|c s IH]; intros acc.
  - simpl. lia.
  - cbn [N_of_digits String.length]. rewrite IH. rewrite (IH (10 * 0 + digit_of_ascii c)%N).
    rewrite Nat2N.inj_succ, N.pow_succ_r'. lia.
Qed.

(** What [N_digits] writes does not depend on what it is written before. *)
Lemma N_digits_acc (fuel : nat) :
  forall (n : N) (acc : string), N_digits fuel n acc = N_digits fuel n "" ++ acc.
Proof.
  induction fuel as [|fuel IH]; intros n acc; [reflexivity|].
  cbn [N_digits]. destruct (n <? 10)%N; [reflexivity|].
  rewrite (IH _ (String _ acc)), (IH _ (String _ "")).
  rewrite app_assoc_string. reflexivity.
Qed.

(** The digits of [n]: they are digits, there is one at least, they
    evaluate to [n], and the first is [0] only for [n = 0]. *)
Lemma N_digits_spec (fuel : nat) :
  forall n : N,
    (N.to_nat (N.log2 n) < fuel)%nat ->
    let ds := N_digits fuel n "" in
    all_digits ds = true
    /\ ds <> ""
    /\ N_of_digits 0 ds = n
    /\ (forall t, ds = String "0" t -> n = 0%N).
Proof.
  induction fuel as [|fuel IH]; intros n Hfuel; [lia|].
  assert (Hmod : (n mod 10 < 10)%N) by (apply N.mod_lt; lia).
  cbn [N_digits]. destruct (n <? 10)%N eqn:Hsmall.
  - apply N.ltb_lt in Hsmall.
    rewrite N.mod_small in * by exact Hsmall.
    repeat split.
    + simpl. rewrite ascii_of_digit_is_digit by exact Hsmall. reflexivity.
    + discriminate.
    + simpl. rewrite digit_of_ascii_of_digit by exact Hsmall. lia.
    + intros t E. injection E as E _. apply ascii_of_digit_zero; assumption.
  - apply N.ltb_ge in Hsmall.
    assert (Hq : (0 < n / 10)%N) by (apply N.div_str_pos; lia).
    assert (Hlog : (N.to_nat (N.log2 (n / 10)) < fuel)%nat).
    { assert (N.log2 (n / 10) < N.log2 n)%N; [|lia].
      apply N.log2_lt_pow2; [exact Hq|].
      assert (Hn : (0 < n)%N) by lia.
      destruct (N.log2_spec n Hn) as [_ Hup].
      rewrite N.pow_succ_r' in Hup.
      pose proof (N.Div0.mul_div_le n 10). lia. }
    destruct (IH (n / 10)%N Hlog) as (Hall & Hne & Hval & Hhead).
    rewrite N_digits_acc.
    repeat split.
    + rewrite all_digits_app, Hall. simpl.
      rewrite ascii_of_digit_is_digit by exact Hmod. reflexivity.
    + destruct (N_digits fuel (n / 10) ""); [congruence|discriminate].
    + rewrite N_of_digits_app, Hval. simpl.
      rewrite digit_of_ascii_of_digit by exact Hmod.
      pose proof (N.div_mod n 10). lia.
    + intros t E. destruct (N_digits fuel (n / 10) "") as [|c ds] eqn:Hds; [congruence|].
      simpl in E. injection E as -> _.
      specialize (Hhead ds eq_refl). lia.
Qed.

Lemma N_to_string_spec (n : N) :
  all_digits (N_to_string n) = true
  /\ N_to_string n <> ""
  /\ N_of_digits 0 (N_to_string n) = n
  /\ (forall t, N_to_string n = String "0" t -> n = 0%N).
Proof. apply N_digits_spec. lia. Qed.

(** ** The number grammar *)

Lemma span_digits_stop (c : ascii) (t : string) :
  is_digit c = false -> span_digits (String c t) = ("", String c t).
Proof. intros H. simpl. rewrite H. reflexivity. Qed.

Lemma span_digits_app (ds rest : string) :
  all_digits ds = true ->
  span_digits rest = ("", rest) ->
  span_digits (ds ++ rest) = (ds, rest).
Proof.
  intros Hall Hstop. induction ds as [|c ds IH]; [exact Hstop|].
  simpl in Hall. apply andb_true_iff in Hall as [Hc Hall].
  simpl. rewrite Hc, (IH Hall). reflexivity.
Qed.

(** A token ends where the text does, or at a comma or a closing bracket. *)
Lemma ends_token_stops (rest : string) :
  ends_token rest = true ->
  span_digits rest = ("", rest)
  /\ parse_frac_part rest = Some ("", rest)
  /\ parse_exp_part rest = Some (0%Z, rest).
Proof.
  destruct rest as [|c rest]; [intros _; repeat split|].
  unfold ends_token. intros H.
  assert (Hc : c = ","%char \/ c = "]"%char \/ c = "}"%char).
  { apply orb_true_iff in H as [H | H]; [apply orb_true_iff in H as [H | H]|];
      apply Ascii.eqb_eq in H; auto. }
  destruct Hc as [-> | [-> | ->]]; repeat split.
Qed.

Lemma parse_int_part_digits (d : ascii) (ds rest : string) :
  is_digit d = true -> d <> "0"%char -> all_digits ds = true ->
  span_digits rest = ("", rest) ->
  parse_int_part (String d ds ++ rest) = Some (String d ds, rest).
Proof.
  intros Hd Hnz Hall Hstop. simpl.
  apply Ascii.eqb_neq in Hnz. rewrite Hnz, Hd.
  rewrite (span_digits_app ds rest Hall Hstop). reflexivity.
Qed.

Lemma parse_frac_part_digits (b rest : string) :
  all_digits b = true -> b <> "" ->
  span_digits rest = ("", rest) ->
  parse_frac_part ("." ++ b ++ rest) = Some (b, rest).
Proof.
  intros Hall Hne Hstop. simpl.
  rewrite (span_digits_app b rest Hall Hstop).
  destruct b; [congruence|reflexivity].
Qed.

(** The exponent part as [Number::toString] writes it. *)
Lemma parse_exp_part_written (e : Z) (rest : string) :
  span_digits rest = ("", rest) ->
  parse_exp_part (((if (e <? 0)%Z then "e-" else "e+") ++ N_to_string (Z.abs_N e)) ++ rest)
  = Some (e, rest).
Proof.
  intros Hstop.
  destruct (N_to_string_spec (Z.abs_N e)) as (Hall & Hne & Hval & _).
  destruct (e <? 0)%Z eqn:Hneg; simpl;
    rewrite (span_digits_app _ rest Hall Hstop);
    destruct (N_to_string (Z.abs_N e)) eqn:Hs; try congruence;
    rewrite Hval; f_equal; f_equal.
  - apply Z.ltb_lt in Hneg. lia.
  - apply Z.ltb_ge in Hneg. lia.
Qed.

Lemma all_digits_zeros (n : nat) : all_digits (zeros n) = true.
Proof. induction n as [|n IH]; [reflexivity|exact IH]. Qed.

Lemma length_zeros (n : nat) : String.length (zeros n) = n.
Proof. induction n as [|n IH]; simpl; [reflexivity|]. f_equal. exact IH. Qed.

Lemma N_of_digits_zeros (n : nat) (acc : N) :
  N_of_digits acc (zeros n) = (acc * 10 ^ N.of_nat n)%N.
Proof.
  revert acc. induction n as [|n IH]; intros acc.
  - simpl. lia.
  - cbn [zeros N_of_digits]. rewrite IH, Nat2N.inj_succ, N.pow_succ_r'.
    change (digit_of_ascii "0") with 0%N. lia.
Qed.

(** [substring] cuts a string in two. *)
Lemma substring_split (n : nat) :
  forall s : string,
    (n <= String.length s)%nat ->
    substring 0 n s ++ substring n (String.length s - n) s = s
    /\ String.length (substring 0 n s) = n.
Proof.
  induction n as [|n IH]; intros s Hn.
  - rewrite Nat.sub_0_r. destruct s as [|c s]; [split; reflexivity|].
    simpl. split; [|reflexivity]. f_equal.
    clear. induction s as [|c s IH]; [reflexivity|]. simpl. f_equal. exact IH.
  - destruct s as [|c s]; simpl in Hn; [lia|].
    destruct (IH s) as (Hcut & Hlen); [lia|].
    simpl. rewrite Hcut, Hlen. split; reflexivity.
Qed.

Lemma make_number_scaled (neg : bool) (m : N) (j : nat) :
  make_number neg (m * 10 ^ N.of_nat j) 0 = make_number neg m (Z.of_nat j).
Proof.
  unfold make_number.
  assert (Hpow : (0 < 10 ^ N.of_nat j)%N) by (apply N.neq_0_lt_0, N.pow_nonzero; lia).
  destruct (m =? 0)%N eqn:Hm.
  - apply N.eqb_eq in Hm. subst m. reflexivity.
  - apply N.eqb_neq in Hm.
    assert (Hne : ((m * 10 ^ N.of_nat j) =? 0)%N = false) by (apply N.eqb_neq; lia).
    rewrite Hne. simpl (0 <=? 0)%Z. cbv iota.
    assert (Hj : (0 <=? Z.of_nat j)%Z = true) by (apply Z.leb_le; lia).
    rewrite Hj. f_equal.
    unfold signed. destruct neg; rewrite N2Z.inj_mul, N2Z.inj_pow, nat_N_Z;
      change (Z.of_N 10) with 10%Z; lia.
Qed.

(** [parse_number] from its three parts. *)
Lemma parse_number_parts (neg : bool) (c : ascii) (t ids s2 fds s3 s4 : string) (x : Z) :
  Ascii.eqb c "-" = false ->
  parse_int_part (String c t) = Some (ids, s2) ->
  parse_frac_part s2 = Some (fds, s3) ->
  parse_exp_part s3 = Some (x, s4) ->
  parse_number ((if neg then "-" else "") ++ String c t)
  = Some (make_number neg (N_of_digits 0 (ids ++ fds)) (x - Z.of_nat (String.length fds)), s4).
Proof.
  intros Hc Hint Hfrac Hexp. unfold parse_number.
  destruct neg.
  - change ("-" ++ String c t) with (String "-" (String c t)).
    cbv beta iota zeta. change (Ascii.eqb "-" "-") with true. cbv beta iota zeta.
    rewrite Hint, Hfrac, Hexp. reflexivity.
  - change ("" ++ String c t) with (String c t).
    cbv beta iota zeta. rewrite Hc. cbv beta iota zeta.
    rewrite Hint, Hfrac, Hexp. reflexivity.
Qed.

(** A number laid out by [Number::toString] is read back as the number
    its digits and its decimal point denote. *)
Lemma parse_number_layout (neg : bool) (d : ascii) (ds rest : string) (n : Z) :
  is_digit d = true -> d <> "0"%char -> all_digits ds = true ->
  ends_token rest = true ->
  parse_number ((if neg then "-" else "") ++ Number_layout (String d ds) n ++ rest)
  = Some (make_number neg (N_of_digits 0 (String d ds))
            (n - Z.of_nat (String.length (String d ds))), rest).
Proof.
  intros Hd Hnz Hall Hend.
  destruct (ends_token_stops rest Hend) as (Hstop & Hnofrac & Hnoexp).
  destruct (is_digit_cases d Hd) as (Hdot & He & HE & Hminus & _).
  assert (Hall' : all_digits (String d ds) = true) by (simpl; rewrite Hd; exact Hall).
  unfold Number_layout.
  set (k := Z.of_nat (String.length (String d ds))).
  destruct ((k <=? n)%Z && (n <=? 21)%Z) eqn:Hcase1.
  { (* the digits, then zeros *)
    apply andb_true_iff in Hcase1 as [Hkn _]. apply Z.leb_le in Hkn.
    set (j := Z.to_nat (n - k)).
    change ((String d ds ++ zeros j) ++ rest) with (String d ((ds ++ zeros j) ++ rest)).
    rewrite (parse_number_parts neg d ((ds ++ zeros j) ++ rest) (String d (ds ++ zeros j))
               rest "" rest rest 0 Hminus); try assumption.
    - rewrite app_nil_r_string.
      change (String d (ds ++ zeros j)) with (String d ds ++ zeros j).
      rewrite N_of_digits_app, N_of_digits_zeros.
      simpl (0 - Z.of_nat (String.length ""))%Z.
      rewrite make_number_scaled. do 3 f_equal. lia.
    - apply (parse_int_part_digits d (ds ++ zeros j) rest Hd Hnz); [|exact Hstop].
      rewrite all_digits_app, Hall, all_digits_zeros. reflexivity. }
  assert (Hexp_stop : forall e : Z,
            span_digits (((if (e <? 0)%Z then "e-" else "e+") ++ N_to_string (Z.abs_N e)) ++ rest)
            = ("", ((if (e <? 0)%Z then "e-" else "e+") ++ N_to_string (Z.abs_N e)) ++ rest)
            /\ parse_frac_part (((if (e <? 0)%Z then "e-" else "e+") ++ N_to_string (Z.abs_N e)) ++ rest)
               = Some ("", ((if (e <? 0)%Z then "e-" else "e+") ++ N_to_string (Z.abs_N e)) ++ rest)).
  { intros e. destruct (e <? 0)%Z; split; reflexivity. }
  destruct ((0 <? n)%Z && (n <=? 21)%Z) eqn:Hcase2.
  { (* digits, the point, digits *)
    apply andb_true_iff in Hcase2 as [Hpos H21]. apply Z.ltb_lt in Hpos.
    rewrite H21, andb_true_r in Hcase1. apply Z.leb_gt in Hcase1.
    destruct (substring_split (Z.to_nat n) (String d ds)) as (Hcut & Hlen).
    { subst k. lia. }
    replace (Z.to_nat (k - n)) with (String.length (String d ds) - Z.to_nat n)%nat
      by (subst k; lia).
    set (b := substring (Z.to_nat n) (String.length (String d ds) - Z.to_nat n) (String d ds)) in *.
    destruct (Z.to_nat n) as [|m] eqn:Hm; [lia|].
    change (substring 0 (S m) (String d ds)) with (String d (substring 0 m ds)) in *.
    set (a := substring 0 m ds) in *.
    assert (Hab : all_digits a = true /\ all_digits b = true).
    { rewrite <- Hcut in Hall'. simpl in Hall'. rewrite Hd, all_digits_app in Hall'.
      simpl in Hall'. apply andb_true_iff in Hall'. exact Hall'. }
    assert (Hb : String.length b = Z.to_nat (k - n)).
    { apply (f_equal String.length) in Hcut. rewrite length_app_string, Hlen in Hcut.
      subst k. lia. }
    rewrite app_assoc_string.
    change (String d a ++ ("." ++ b) ++ rest) with (String d (a ++ "." ++ b ++ rest)).
    rewrite (parse_number_parts neg d (a ++ "." ++ b ++ rest) (String d a)
               ("." ++ b ++ rest) b rest rest 0 Hminus).
    - rewrite Hcut, Hb. do 3 f_equal. lia.
    - apply (parse_int_part_digits d a ("." ++ b ++ rest) Hd Hnz); [apply Hab|reflexivity].
    - apply parse_frac_part_digits; [apply Hab| |exact Hstop].
      intros ->. simpl in Hb. lia.
    - exact Hnoexp. }
  destruct ((-6 <? n)%Z && (n <=? 0)%Z) eqn:Hcase3.
  { (* zero, the point, zeros, digits *)
    apply andb_true_iff in Hcase3 as [_ Hle]. apply Z.leb_le in Hle.
    set (j := Z.to_nat (- n)).
    change (("0." ++ zeros j ++ String d ds) ++ rest)
      with (String "0" ("." ++ (zeros j ++ String d ds) ++ rest)).
    rewrite (parse_number_parts neg "0" ("." ++ (zeros j ++ String d ds) ++ rest) "0"
               ("." ++ (zeros j ++ String d ds) ++ rest) (zeros j ++ String d ds) rest rest 0).
    - change ("0" ++ zeros j ++ String d ds) with (String "0" (zeros j ++ String d ds)).
      cbn [N_of_digits]. change (10 * 0 + digit_of_ascii "0")%N with 0%N.
      rewrite N_of_digits_app, N_of_digits_zeros, length_app_string, length_zeros.
      rewrite N.mul_0_l. do 3 f_equal. subst k j. lia.
    - reflexivity.
    - reflexivity.
    - apply parse_frac_part_digits; [| |exact Hstop].
      + rewrite all_digits_app, all_digits_zeros. exact Hall'.
      + destruct (zeros j); discriminate.
    - exact Hnoexp. }
  (* one digit, the others after the point, the exponent *)
  destruct (Hexp_stop (n - 1)%Z) as (Hs & Hf).
  pose proof (parse_exp_part_written (n - 1) rest Hstop) as Hx.
  set (ex := (if (n - 1 <? 0)%Z then "e-" else "e+") ++ N_to_string (Z.abs_N (n - 1))) in *.
  destruct ds as [|c ds].
  - change (String d ex ++ rest) with (String d (ex ++ rest)).
    rewrite (parse_number_parts neg d (ex ++ rest) (String d "") (ex ++ rest) ""
               (ex ++ rest) rest (n - 1) Hminus).
    + do 3 f_equal. subst k. simpl. lia.
    + apply (parse_int_part_digits d "" (ex ++ rest) Hd Hnz); [reflexivity|exact Hs].
    + exact Hf.
    + exact Hx.
  - change (String d ("." ++ String c ds ++ ex) ++ rest)
      with (String d (("." ++ String c ds ++ ex) ++ rest)).
    replace (("." ++ String c ds ++ ex) ++ rest) with ("." ++ String c ds ++ ex ++ rest)
      by (rewrite !app_assoc_string; reflexivity).
    rewrite (parse_number_parts neg d ("." ++ String c ds ++ ex ++ rest) (String d "")
               ("." ++ String c ds ++ ex ++ rest) (String c ds) (ex ++ rest) rest (n - 1) Hminus).
    + do 3 f_equal. subst k. cbn [String.length]. lia.
    + apply (parse_int_part_digits d "" ("." ++ String c ds ++ ex ++ rest) Hd Hnz); reflexivity.
    + apply parse_frac_part_digits; [exact Hall|discriminate|exact Hs].
    + exact Hx.
Qed.

Lemma strip_zeros_spec (s : string) :
  s = fst (strip_zeros s) ++ zeros (snd (strip_zeros s)).
Proof.
  induction s as [|c s IH]; [reflexivity|].
  cbn [strip_zeros]. destruct (strip_zeros s) as [p t]. simpl in IH.
  destruct p as [|x p].
  - destruct (Ascii.eqb c "0") eqn:Hc; simpl.
    + apply Ascii.eqb_eq in Hc. subst c. f_equal. exact IH.
    + f_equal. exact IH.
  - simpl. f_equal. exact IH.
Qed.

Lemma abs_N_multiple_of_ten (m : Z) :
  (Z.abs_N m mod 10 = 0)%N -> (m mod 10 = 0)%Z.
Proof.
  intros H. apply (f_equal Z.of_N) in H.
  rewrite N2Z.inj_mod, N2Z.inj_abs_N in H. change (Z.of_N 10) with 10%Z in H.
  change (Z.of_N 0) with 0%Z in H.
  destruct (Z.abs_eq_or_opp m) as [E | E]; rewrite E in H; [exact H|].
  rewrite <- (Z.opp_involutive m). apply Z.mod_opp_l_z; [lia|exact H].
Qed.

Lemma signed_abs (z : Z) : signed (z <? 0)%Z (Z.abs_N z) = z.
Proof.
  unfold signed. destruct (Z.ltb_spec z 0); rewrite N2Z.inj_abs_N; lia.
Qed.

(** What [Number::toString] writes for a finite number is read back as
    that number. *)
Lemma parse_number_toString (x : JSNumber) (rest : string) :
  is_finite x = true -> wf_number x = true -> ends_token rest = true ->
  parse_number (Number_toString x ++ rest) = Some (x, rest).
Proof.
  intros Hfin Hwf Hend. destruct x as [z | m e | | neg]; try discriminate Hfin.
  - (* an integer *)
    unfold Number_toString. destruct (z =? 0)%Z eqn:Hz.
    + apply Z.eqb_eq in Hz. subst z.
      destruct (ends_token_stops rest Hend) as (Hstop & Hnofrac & Hnoexp).
      exact (parse_number_parts false "0" rest "0" rest "" rest rest 0 eq_refl eq_refl
               Hnofrac Hnoexp).
    + apply Z.eqb_neq in Hz.
      destruct (N_to_string_spec (Z.abs_N z)) as (Hall & Hne & Hval & Hhead).
      pose proof (strip_zeros_spec (N_to_string (Z.abs_N z))) as Hstrip.
      destruct (strip_zeros (N_to_string (Z.abs_N z))) as [p t]. simpl in Hstrip.
      destruct p as [|d p].
      { destruct t as [|t]; simpl in Hstrip; [congruence|].
        specialize (Hhead _ Hstrip). lia. }
      assert (Hd : d <> "0"%char).
      { intros ->. specialize (Hhead _ Hstrip). lia. }
      rewrite Hstrip in Hall. rewrite all_digits_app in Hall.
      apply andb_true_iff in Hall as [Hall _]. simpl in Hall.
      apply andb_true_iff in Hall as [Hdig Hall].
      rewrite app_assoc_string.
      rewrite (parse_number_layout (z <? 0)%Z d p rest _ Hdig Hd Hall Hend).
      f_equal. f_equal.
      rewrite Hstrip, length_app_string, length_zeros.
      replace (Z.of_nat (String.length (String d p) + t) - Z.of_nat (String.length (String d p)))%Z
        with (Z.of_nat t) by lia.
      rewrite <- make_number_scaled, <- N_of_digits_zeros, <- N_of_digits_app, <- Hstrip, Hval.
      unfold make_number.
      assert (Hnz : (Z.abs_N z =? 0)%N = false) by (apply N.eqb_neq; lia).
      rewrite Hnz. simpl. rewrite signed_abs. f_equal. lia.
  - (* a decimal *)
    unfold wf_number in Hwf. apply negb_true_iff, Z.eqb_neq in Hwf.
    assert (Hmod : (Z.abs_N m mod 10 <> 0)%N).
    { intros H. apply Hwf, abs_N_multiple_of_ten, H. }
    assert (Hm : (Z.abs_N m <> 0)%N).
    { intros H. rewrite H in Hmod. apply Hmod. reflexivity. }
    unfold Number_toString.
    destruct (N_to_string_spec (Z.abs_N m)) as (Hall & Hne & Hval & Hhead).
    destruct (N_to_string (Z.abs_N m)) as [|d p] eqn:Hs; [congruence|].
    assert (Hd : d <> "0"%char).
    { intros ->. specialize (Hhead _ eq_refl). lia. }
    simpl in Hall. apply andb_true_iff in Hall as [Hdig Hall].
    rewrite app_assoc_string.
    rewrite (parse_number_layout (m <? 0)%Z d p rest _ Hdig Hd Hall Hend).
    f_equal. f_equal. rewrite Hval.
    replace (Z.of_nat (String.length (String d p)) - Z.pos e
             - Z.of_nat (String.length (String d p)))%Z with (- Z.pos e)%Z by lia.
    unfold make_number.
    assert (Hnz : (Z.abs_N m =? 0)%N = false) by (apply N.eqb_neq; exact Hm).
    rewrite Hnz. change (0 <=? - Z.pos e)%Z with false. cbv iota.
    cbn [drop_zeros].
    apply N.eqb_neq in Hmod. rewrite Hmod, andb_false_r.
    rewrite Z.opp_involutive.
    change (Z.pos e =? 0)%Z with false. cbv iota.
    rewrite signed_abs. reflexivity.
Qed.

(** ** String literals *)

(** A character as [JSON.stringify] writes it is read back as itself. *)
Lemma parse_quote_char (c : ascii) (t body rest : string) :
  parse_string_body t = Some (body, rest) ->
  parse_string_body (quote_char c ++ t) = Some (String c body, rest).
Proof.
  intros H.
  destruct c as [[] [] [] [] [] [] [] []];
    cbv [quote_char nat_of_ascii N_of_ascii N_of_digits]; simpl; rewrite H; reflexivity.
Qed.

Lemma parse_quote_chars (s rest : string) :
  parse_string_body (quote_chars s ++ String dquote rest) = Some (s, rest).
Proof.
  induction s as [|c s IH]; [reflexivity|].
  simpl. rewrite app_assoc_string. apply parse_quote_char. exact IH.
Qed.

(** ** Values *)

Lemma stringify_array (elems : list JSValue) :
  JSON_stringify (JArr elems) = Some ("[" ++ join_with "," (map text_of elems) ++ "]").
Proof. reflexivity. Qed.

Lemma stringify_object (props : list (string * JSValue)) :
  JSON_stringify (JObj props)
  = Some ("{" ++ join_with ","
                   (flat_map (fun kv => match JSON_stringify (snd kv) with
                                        | Some t => [QuoteJSONString (fst kv) ++ ":" ++ t]
                                        | None => []
                                        end) props)
              ++ "}").
Proof. reflexivity. Qed.

(** A representable value has a serialization. *)
Lemma representable_stringify (v : JSValue) :
  representable v = true -> JSON_stringify v = Some (text_of v).
Proof. unfold text_of. destruct v; simpl; intros H; try reflexivity; discriminate H. Qed.

Lemma members_text (props : list (string * JSValue)) :
  forallb (fun kv => representable (snd kv)) props = true ->
  flat_map (fun kv => match JSON_stringify (snd kv) with
                      | Some t => [QuoteJSONString (fst kv) ++ ":" ++ t]
                      | None => []
                      end) props
  = map (fun kv => QuoteJSONString (fst kv) ++ ":" ++ text_of (snd kv)) props.
Proof.
  induction props as [|kv props IH]; [reflexivity|].
  cbn [flat_map map forallb]. intros H. apply andb_true_iff in H as [Hv H].
  rewrite (representable_stringify _ Hv), (IH H). reflexivity.
Qed.

Lemma join_with_cons (sep p : string) (ps : list string) :
  join_with sep (p :: ps)
  = match ps with
    | [] => p
    | _ :: _ => p ++ sep ++ join_with sep ps
    end.
Proof. reflexivity. Qed.

(** A text that parses as a number starts with a digit or a minus sign. *)
Lemma parse_number_head (s : string) (r : JSNumber * string) :
  parse_number s = Some r ->
  exists c s', s = String c s' /\ (c = "-"%char \/ is_digit c = true).
Proof.
  unfold parse_number. destruct s as [|c s]; [discriminate|].
  intros H. exists c, s. split; [reflexivity|].
  destruct (Ascii.eqb c "-") eqn:Hc; [left; apply Ascii.eqb_eq, Hc|right].
  unfold parse_int_part in H.
  destruct (Ascii.eqb c "0") eqn:H0; [apply Ascii.eqb_eq in H0; subst c; reflexivity|].
  destruct (is_digit c); [reflexivity|discriminate H].
Qed.

(** Such a character starts no other kind of value and is no white space. *)
Lemma number_start (c : ascii) :
  c = "-"%char \/ is_digit c = true ->
  is_ws c = false /\ Ascii.eqb c "{" = false /\ Ascii.eqb c "[" = false
  /\ Ascii.eqb c dquote = false /\ Ascii.eqb c "t" = false
  /\ Ascii.eqb c "f" = false /\ Ascii.eqb c "n" = false.
Proof.
  intros [-> | H]; [repeat split|].
  destruct c as [[] [] [] [] [] [] [] []]; try discriminate H; repeat split.
Qed.

Lemma parse_value_number (fuel : nat) (x : JSNumber) (rest : string) :
  is_finite x = true -> wf_number x = true -> ends_token rest = true ->
  parse_value (S fuel) (Number_toString x ++ rest) = Some (JNum x, rest).
Proof.
  intros Hfin Hwf Hend.
  pose proof (parse_number_toString x rest Hfin Hwf Hend) as Hparse.
  destruct (parse_number_head _ _ Hparse) as (c & s' & Hs & Hc).
  rewrite Hs in *.
  destruct (number_start c Hc) as (Hws & H1 & H2 & H3 & H4 & H5 & H6).
  cbn [parse_value skip_ws]. rewrite Hws, H1, H2, H3, H4, H5, H6, Hparse. reflexivity.
Qed.

(** A text that parses as a value starts, after white space, with a
    character that closes neither an array nor an object. *)
Lemma parse_value_head (fuel : nat) (s : string) (r : JSValue * string) :
  parse_value fuel s = Some r ->
  exists c s', skip_ws s = String c s'
               /\ Ascii.eqb c "]" = false /\ Ascii.eqb c "}" = false.
Proof.
  destruct fuel as [|fuel]; [discriminate|].
  cbn [parse_value]. destruct (skip_ws s) as [|c s']; [discriminate|].
  intros H. exists c, s'. split; [reflexivity|].
  destruct (Ascii.eqb c "]") eqn:Hc.
  - apply Ascii.eqb_eq in Hc. subst c. discriminate H.
  - split; [reflexivity|].
    destruct (Ascii.eqb c "}") eqn:Hc'; [|reflexivity].
    apply Ascii.eqb_eq in Hc'. subst c. discriminate H.
Qed.

(** Properties with distinct names are defined in the order read. *)
Lemma set_property_fresh (k : string) (v : JSValue) (props : list (string * JSValue)) :
  existsb (String.eqb k) (map fst props) = false ->
  set_property k v props = (props ++ [(k, v)])%list.
Proof.
  induction props as [|[k' v'] props IH]; [reflexivity|].
  simpl. intros H. apply orb_false_iff in H as [Hk H].
  rewrite Hk, (IH H). reflexivity.
Qed.

Lemma distinct_app (a b : list string) :
  distinct (a ++ b)%list = true ->
  forall k, In k b -> existsb (String.eqb k) a = false.
Proof.
  induction a as [|x a IH]; [reflexivity|].
  simpl. intros H k Hk. apply andb_true_iff in H as [Hx H].
  apply negb_true_iff in Hx. rewrite (IH H k Hk), orb_false_r.
  destruct (String.eqb k x) eqn:E; [|reflexivity].
  apply String.eqb_eq in E. subst x.
  rewrite <- Hx. symmetry. apply existsb_exists. exists k. split.
  - apply in_or_app. right. exact Hk.
  - apply String.eqb_refl.
Qed.

Lemma build_object_from (members acc : list (string * JSValue)) :
  distinct (map fst (acc ++ members)%list) = true ->
  fold_left (fun o kv => set_property (fst kv) (snd kv) o) members acc
  = (acc ++ members)%list.
Proof.
  revert acc. induction members as [|[k v] members IH]; intros acc H.
  - simpl. rewrite app_nil_r. reflexivity.
  - simpl. rewrite set_property_fresh.
    + rewrite IH; rewrite <- app_assoc; [reflexivity|exact H].
    + rewrite map_app in H. apply (distinct_app _ _ H). left. reflexivity.
Qed.

Lemma build_object_distinct (members : list (string * JSValue)) :
  distinct (map fst members) = true -> build_object members = members.
Proof. intros H. apply (build_object_from members [] H). Qed.

Lemma parse_elements_head (fuel : nat) (s : string) (r : list JSValue * string) :
  parse_elements fuel s = Some r ->
  exists c s', skip_ws s = String c s' /\ Ascii.eqb c "]" = false.
Proof.
  destruct fuel as [|fuel]; [discriminate|].
  cbn [parse_elements]. destruct (parse_value fuel s) as [p|] eqn:Hv; [|discriminate].
  intros _. destruct (parse_value_head _ _ _ Hv) as (c & s' & Hs & Hc & _). eauto.
Qed.

Lemma parse_members_head (fuel : nat) (s : string)
    (r : list (string * JSValue) * string) :
  parse_members fuel s = Some r ->
  exists c s', skip_ws s = String c s' /\ Ascii.eqb c "}" = false.
Proof.
  destruct fuel as [|fuel]; [discriminate|].
  cbn [parse_members]. destruct (skip_ws s) as [|c s']; [discriminate|].
  destruct (Ascii.eqb c dquote) eqn:Hq; [|discriminate].
  intros _. apply Ascii.eqb_eq in Hq. subst c. exists dquote, s'. split; reflexivity.
Qed.

(** The elements of an array, written with commas and closed by a
    bracket, are read back one by one. *)
Lemma parse_elements_text (elems : list JSValue) :
  elems <> [] ->
  Forall (fun e => forall rest fuel,
            ends_token rest = true -> (weight e <= fuel)%nat ->
            parse_value fuel (text_of e ++ rest) = Some (e, rest)) elems ->
  forall rest fuel,
    (fold_right (fun e n => S (weight e + n)) O elems <= fuel)%nat ->
    parse_elements fuel ((join_with "," (map text_of elems) ++ "]") ++ rest)
    = Some (elems, rest).
Proof.
  intros Hne Hall. induction Hall as [|e es He Hes IH]; [congruence|].
  intros rest fuel Hfuel. cbn [fold_right] in Hfuel.
  destruct fuel as [|fuel]; [lia|].
  cbn [map]. rewrite join_with_cons. destruct es as [|e' es].
  - cbn [map]. rewrite app_assoc_string.
    cbn [parse_elements]. rewrite He by (reflexivity || (cbn [fold_right] in Hfuel; lia)).
    reflexivity.
  - cbn [map] in *. rewrite !app_assoc_string.
    cbn [parse_elements]. rewrite He by (reflexivity || lia).
    change (skip_ws ("," ++ join_with "," (text_of e' :: map text_of es) ++ "]" ++ rest))
      with (String "," (join_with "," (text_of e' :: map text_of es) ++ "]" ++ rest)).
    change (Ascii.eqb "," ",") with true. cbv iota.
    rewrite <- app_assoc_string.
    rewrite IH by (discriminate || lia). reflexivity.
Qed.

(** The properties of an object likewise. *)
Lemma parse_members_text (props : list (string * JSValue)) :
  props <> [] ->
  Forall (fun kv => forall rest fuel,
            ends_token rest = true -> (weight (snd kv) <= fuel)%nat ->
            parse_value fuel (text_of (snd kv) ++ rest) = Some (snd kv, rest)) props ->
  forall rest fuel,
    (fold_right (fun kv n => S (weight (snd kv) + n)) O props <= fuel)%nat ->
    parse_members fuel
      ((join_with "," (map (fun kv => QuoteJSONString (fst kv) ++ ":" ++ text_of (snd kv)) props)
          ++ "}") ++ rest)
    = Some (props, rest).
Proof.
  intros Hne Hall. induction Hall as [|[k v] ps Hv Hps IH]; [congruence|].
  intros rest fuel Hfuel. cbn [fold_right snd] in Hfuel.
  destruct fuel as [|fuel]; [lia|].
  cbn [map fst snd] in *. rewrite join_with_cons.
  assert (Hkey : forall R,
            parse_members (S fuel) ((QuoteJSONString k ++ ":" ++ text_of v) ++ R)
            = match parse_value fuel (text_of v ++ R) with
              | None => None
              | Some (v0, rest0) =>
                  match skip_ws rest0 with
                  | EmptyString => None
                  | String c rest' =>
                      if Ascii.eqb c "," then
                        match parse_members fuel rest' with
                        | None => None
                        | Some (ms, rest'') => Some ((k, v0) :: ms, rest'')
                        end
                      else if Ascii.eqb c "}" then Some ([(k, v0)], rest')
                      else None
                  end
              end).
  { intros R. unfold QuoteJSONString.
    replace ((String dquote (quote_chars k ++ String dquote "") ++ ":" ++ text_of v) ++ R)
      with (String dquote (quote_chars k ++ String dquote (":" ++ text_of v ++ R)))
      by (cbn [append]; rewrite !app_assoc_string; reflexivity).
    cbn [parse_members skip_ws]. change (is_ws dquote) with false. cbv iota.
    change (Ascii.eqb dquote dquote) with true. cbv iota.
    rewrite parse_quote_chars.
    change (skip_ws (":" ++ text_of v ++ R)) with (String ":" (text_of v ++ R)).
    change (Ascii.eqb ":" ":") with true. cbv iota. reflexivity. }
  set (X := QuoteJSONString k ++ ":" ++ text_of v) in *.
  destruct ps as [|kv' ps].
  - rewrite app_assoc_string, Hkey, Hv by (reflexivity || lia). reflexivity.
  - cbn [map]. set (J := join_with "," _) in *.
    rewrite !app_assoc_string, Hkey.
    rewrite Hv by (reflexivity || lia).
    change (skip_ws ("," ++ J ++ "}" ++ rest)) with (String "," (J ++ "}" ++ rest)).
    change (Ascii.eqb "," ",") with true. cbv iota.
    rewrite <- app_assoc_string.
    rewrite IH by (discriminate || lia). reflexivity.
Qed.

(** The text [JSON.stringify] writes for a representable value is read
    back as that value, given fuel for its weight. *)
Lemma parse_value_text (v : JSValue) :
  representable v = true ->
  forall rest fuel,
    ends_token rest = true -> (weight v <= fuel)%nat ->
    parse_value fuel (text_of v ++ rest) = Some (v, rest).
Proof.
  induction v as [| |b|x|s|elems IH|props IH] using JSValue_ind; intros Hrep rest fuel Hend Hfuel;
    (destruct fuel as [|fuel]; [simpl in Hfuel; lia|]).
  - discriminate Hrep.
  - reflexivity.
  - destruct b; reflexivity.
  - simpl in Hrep. apply andb_true_iff in Hrep as [Hfin Hwf].
    unfold text_of. cbn [JSON_stringify]. rewrite Hfin.
    apply parse_value_number; assumption.
  - unfold text_of. cbn [JSON_stringify]. unfold QuoteJSONString.
    replace (String dquote (quote_chars s ++ String dquote "") ++ rest)
      with (String dquote (quote_chars s ++ String dquote rest))
      by (cbn [append]; rewrite app_assoc_string; reflexivity).
    cbn [parse_value skip_ws]. change (is_ws dquote) with false. cbv iota.
    change (Ascii.eqb dquote "{") with false. change (Ascii.eqb dquote "[") with false.
    change (Ascii.eqb dquote dquote) with true. cbv iota.
    rewrite parse_quote_chars. reflexivity.
  - unfold text_of. rewrite stringify_array.
    destruct elems as [|e es]; [reflexivity|].
    assert (Hel : parse_elements fuel
                    ((join_with "," (map text_of (e :: es)) ++ "]") ++ rest)
                  = Some (e :: es, rest)).
    { apply parse_elements_text; [discriminate| |cbn [weight] in Hfuel; lia].
      cbn [representable] in Hrep. rewrite forallb_forall in Hrep.
      rewrite List.Forall_forall in IH |- *. intros x Hx. apply IH; [exact Hx|].
      apply Hrep. exact Hx. }
    destruct (parse_elements_head _ _ _ Hel) as (c & s' & Hs & Hc).
    change (("[" ++ join_with "," (map text_of (e :: es)) ++ "]") ++ rest)
      with (String "[" ((join_with "," (map text_of (e :: es)) ++ "]") ++ rest)).
    cbn [parse_value skip_ws]. change (is_ws "[") with false. cbv iota.
    change (Ascii.eqb "[" "{") with false. change (Ascii.eqb "[" "[") with true. cbv iota.
    rewrite Hs, Hc, Hel. reflexivity.
  - unfold text_of. rewrite stringify_object.
    cbn [representable] in Hrep. apply andb_true_iff in Hrep as [Hrep Hkeys].
    rewrite (members_text props Hrep).
    destruct props as [|kv ps]; [reflexivity|].
    assert (Hms : parse_members fuel
                    ((join_with ","
                        (map (fun kv => QuoteJSONString (fst kv) ++ ":" ++ text_of (snd kv))
                           (kv :: ps)) ++ "}") ++ rest)
                  = Some (kv :: ps, rest)).
    { apply parse_members_text; [discriminate| |cbn [weight] in Hfuel; lia].
      rewrite forallb_forall in Hrep.
      rewrite List.Forall_forall in IH |- *. intros x Hx. apply IH; [exact Hx|].
      apply Hrep. exact Hx. }
    destruct (parse_members_head _ _ _ Hms) as (c & s' & Hs & Hc).
    match goal with |- parse_value _ (("{" ++ ?j ++ "}") ++ rest) = _ =>
      change (("{" ++ j ++ "}") ++ rest) with (String "{" ((j ++ "}") ++ rest)) end.
    cbn [parse_value skip_ws]. change (is_ws "{") with false. cbv iota.
    change (Ascii.eqb "{" "{") with true. cbv iota.
    rewrite Hs, Hc, Hms. rewrite (build_object_distinct _ Hkeys). reflexivity.
Qed.

(** ** Fuel *)

Lemma length_join_with (parts : list string) :
  (fold_right (fun p n => S (String.length p + n)) O parts
   <= S (String.length (join_with "," parts)))%nat.
Proof.
  induction parts as [|p ps IH]; [simpl; lia|].
  rewrite join_with_cons. cbn [fold_right]. destruct ps as [|q ps].
  - simpl. lia.
  - rewrite !length_app_string. cbn [String.length] in *. lia.
Qed.

(** The text of a value is long enough to pay for parsing it. *)
Lemma weight_text (v : JSValue) :
  representable v = true -> (weight v <= 2 * String.length (text_of v))%nat.
Proof.
  induction v as [| |b|x|s|elems IH|props IH] using JSValue_ind; intros Hrep.
  - discriminate Hrep.
  - simpl. lia.
  - destruct b; simpl; lia.
  - simpl in Hrep. apply andb_true_iff in Hrep as [Hfin Hwf].
    pose proof (parse_number_toString x "" Hfin Hwf eq_refl) as Hparse.
    destruct (parse_number_head _ _ Hparse) as (c & s' & Hs & _).
    unfold text_of. cbn [JSON_stringify weight]. rewrite Hfin.
    rewrite app_nil_r_string in Hs. rewrite Hs. simpl. lia.
  - unfold text_of. simpl. lia.
  - unfold text_of. rewrite stringify_array. cbn [weight representable] in *.
    rewrite !length_app_string. cbn [String.length].
    pose proof (length_join_with (map text_of elems)) as Hjoin.
    assert (Hsum : (fold_right (fun e n => S (weight e + n)) O elems
                    <= 2 * fold_right (fun p n => S (String.length p + n)) O (map text_of elems))%nat).
    { clear Hjoin. induction IH as [|e es He Hes IHes]; [simpl; lia|].
      cbn [forallb] in Hrep. apply andb_true_iff in Hrep as [Hre Hres].
      specialize (He Hre). specialize (IHes Hres). cbn [fold_right map]. lia. }
    lia.
  - unfold text_of. rewrite stringify_object. cbn [weight representable] in *.
    apply andb_true_iff in Hrep as [Hrep _]. rewrite (members_text props Hrep).
    rewrite !length_app_string. cbn [String.length].
    pose proof (length_join_with
                  (map (fun kv => QuoteJSONString (fst kv) ++ ":" ++ text_of (snd kv)) props))
      as Hjoin.
    assert (Hsum : (fold_right (fun kv n => S (weight (snd kv) + n)) O props
                    <= 2 * fold_right (fun p n => S (String.length p + n)) O
                           (map (fun kv => QuoteJSONString (fst kv) ++ ":" ++ text_of (snd kv))
                              props))%nat).
    { clear Hjoin. induction IH as [|kv ps Hkv Hps IHps]; [simpl; lia|].
      cbn [forallb] in Hrep. apply andb_true_iff in Hrep as [Hre Hres].
      specialize (Hkv Hre). specialize (IHps Hres). cbn [fold_right map].
      rewrite !length_app_string. lia. }
    lia.
Qed.

(** ** [JSON.parse] after [JSON.stringify] *)

Lemma JSON_parse_text (v : JSValue) :
  representable v = true -> JS.JSON_parse (text_of v) = Some v.
Proof.
  intros Hrep. unfold JS.JSON_parse.
  pose proof (parse_value_text v Hrep "" (parse_fuel (text_of v)) eq_refl) as Hparse.
  rewrite app_nil_r_string in Hparse. rewrite Hparse; [reflexivity|].
  pose proof (weight_text v Hrep). unfold parse_fuel. lia.
Qed.

Lemma JSON_parse_stringify (v : JSValue) (t : string) :
  representable v = true -> JSON_stringify v = Some t -> JS.JSON_parse t = Some v.
Proof.
  intros Hrep Ht. rewrite (representable_stringify v Hrep) in Ht.
  injection Ht as <-. apply JSON_parse_text. exact Hrep.
Qed.

(** A finite number printed by [String] is a JSON text of that number. *)
Lemma JSON_parse_number (x : JSNumber) :
  is_finite x = true -> wf_number x = true ->
  JS.JSON_parse (Number_toString x) = Some (JNum x).
Proof.
  intros Hfin Hwf.
  assert (Hrep : representable (JNum x) = true) by (simpl; rewrite Hfin, Hwf; reflexivity).
  pose proof (JSON_parse_text (JNum x) Hrep) as H.
  unfold text_of in H. cbn [JSON_stringify] in H. rewrite Hfin in H. exact H.
Qed.

(* ===================================================================== *)
(** * JSON: the parser's fuel is never exhausted *)
(* ===================================================================== *)

Lemma length_skip_ws (s : string) : (String.length (skip_ws s) <= String.length s)%nat.
Proof.
  induction s as [|c s IH]; [reflexivity|].
  simpl. destruct (is_ws c); simpl; lia.
Qed.

Lemma length_expect (lit s r : string) :
  expect lit s = Some r -> (String.length r <= String.length s)%nat.
Proof.
  revert s. induction lit as [|a lit IH]; intros s H.
  - injection H as ->. lia.
  - destruct s as [|c s]; [discriminate H|]. simpl in H.
    destruct (Ascii.eqb a c); [|discriminate H].
    apply IH in H. simpl. lia.
Qed.

Lemma length_span_digits (s : string) :
  (String.length (snd (span_digits s)) <= String.length s)%nat.
Proof.
  induction s as [|c s IH]; [reflexivity|].
  simpl. destruct (is_digit c); [|simpl; lia].
  destruct (span_digits s) as [d r]. simpl in *. lia.
Qed.

Lemma length_parse_int_part (s ids r : string) :
  parse_int_part s = Some (ids, r) -> (String.length r < String.length s)%nat.
Proof.
  destruct s as [|c s]; [discriminate|]. simpl.
  destruct (Ascii.eqb c "0"); [intros H; injection H as _ <-; lia|].
  destruct (is_digit c); [|discriminate].
  pose proof (length_span_digits s) as Hlen. destruct (span_digits s) as [d r'].
  intros H. injection H as _ <-. simpl in Hlen. lia.
Qed.

Lemma length_parse_frac_part (s fds r : string) :
  parse_frac_part s = Some (fds, r) -> (String.length r <= String.length s)%nat.
Proof.
  destruct s as [|c s]; [intros H; injection H as _ <-; lia|]. simpl.
  destruct (Ascii.eqb c ".").
  - pose proof (length_span_digits s) as Hlen. destruct (span_digits s) as [d r'].
    destruct d; [discriminate|]. intros H. injection H as _ <-. simpl in Hlen. lia.
  - intros H. injection H as _ <-. simpl. lia.
Qed.

Lemma length_parse_exp_part (s r : string) (x : Z) :
  parse_exp_part s = Some (x, r) -> (String.length r <= String.length s)%nat.
Proof.
  destruct s as [|c s]; [intros H; injection H as _ <-; lia|]. simpl.
  destruct (Ascii.eqb c "e" || Ascii.eqb c "E");
    [|intros H; injection H as _ <-; simpl; lia].
  destruct s as [|sg t]; [discriminate|].
  destruct (Ascii.eqb sg "-"); [|destruct (Ascii.eqb sg "+")];
    match goal with
    | |- context [span_digits ?u] =>
        pose proof (length_span_digits u) as Hlen;
        destruct (span_digits u) as [d r0]; destruct d; [discriminate|];
        intros H; injection H as _ <-; simpl in Hlen |- *; lia
    end.
Qed.

Lemma length_parse_number (s r : string) (x : JSNumber) :
  parse_number s = Some (x, r) -> (String.length r < String.length s)%nat.
Proof.
  unfold parse_number.
  assert (Hbody : forall s1 neg,
            match parse_int_part s1 with
            | None => None
            | Some (ids, s2) =>
                match parse_frac_part s2 with
                | None => None
                | Some (fds, s3) =>
                    match parse_exp_part s3 with
                    | None => None
                    | Some (x0, s4) =>
                        Some (make_number neg (N_of_digits 0 (ids ++ fds))
                                (x0 - Z.of_nat (String.length fds)), s4)
                    end
                end
            end = Some (x, r) ->
            (String.length r < String.length s1)%nat).
  { intros s1 neg.
    destruct (parse_int_part s1) as [[ids s2]|] eqn:Hint; [|discriminate].
    destruct (parse_frac_part s2) as [[fds s3]|] eqn:Hfrac; [|discriminate].
    destruct (parse_exp_part s3) as [[x0 s4]|] eqn:Hexp; [|discriminate].
    intros H. injection H as _ <-.
    apply length_parse_int_part in Hint. apply length_parse_frac_part in Hfrac.
    apply length_parse_exp_part in Hexp. lia. }
  destruct s as [|c s]; [apply Hbody|].
  destruct (Ascii.eqb c "-"); [|apply Hbody].
  intros H. apply Hbody in H. simpl. lia.
Qed.

Lemma length_parse_string_body (n : nat) :
  forall s body r : string,
    (String.length s <= n)%nat ->
    parse_string_body s = Some (body, r) -> (String.length r < String.length s)%nat.
Proof.
  induction n as [|n IH]; intros s body r Hn H.
  - destruct s; [discriminate H|simpl in Hn; lia].
  - destruct s as [|c s]; [discriminate H|]. cbn [parse_string_body] in H.
    simpl in Hn.
    destruct (Ascii.eqb c dquote); [injection H as _ <-; simpl; lia|].
    destruct (Ascii.eqb c backslash).
    + destruct s as [|x s]; [discriminate H|].
      destruct (Ascii.eqb x "u").
      * destruct s as [|h1 [|h2 [|h3 [|h4 t]]]]; try discriminate H.
        destruct (unicode_escape h1 h2 h3 h4); [|discriminate H].
        destruct (parse_string_body t) as [[b0 r0]|] eqn:Ht; [|discriminate H].
        injection H as _ <-. apply IH in Ht; simpl in *; lia.
      * destruct (unescape x); [|discriminate H].
        destruct (parse_string_body s) as [[b0 r0]|] eqn:Hs; [|discriminate H].
        injection H as _ <-. apply IH in Hs; simpl in *; lia.
    + destruct (nat_of_ascii c <? 32)%nat; [discriminate H|].
      destruct (parse_string_body s) as [[b0 r0]|] eqn:Hs; [|discriminate H].
      injection H as _ <-. apply IH in Hs; simpl in *; lia.
Qed.

(** Every successful call consumes a character at least. *)
Lemma parser_consumes (fuel : nat) :
  (forall s v r, parse_value fuel s = Some (v, r) ->
                 (String.length r < String.length s)%nat)
  /\ (forall s vs r, parse_elements fuel s = Some (vs, r) ->
                     (String.length r < String.length s)%nat)
  /\ (forall s ms r, parse_members fuel s = Some (ms, r) ->
                     (String.length r < String.length s)%nat).
Proof.
  induction fuel as [|fuel (IHv & IHe & IHm)]; [repeat split; discriminate|].
  repeat split.
  - intros s v r. cbn [parse_value].
    pose proof (length_skip_ws s) as Hs.
    destruct (skip_ws s) as [|c rest]; [discriminate|]. simpl in Hs.
    pose proof (length_skip_ws rest) as Hrest.
    destruct (Ascii.eqb c "{").
    { destruct (skip_ws rest) as [|c' rest']; [discriminate|]. simpl in Hrest.
      destruct (Ascii.eqb c' "}"); [intros H; injection H as _ <-; lia|].
      destruct (parse_members fuel rest) as [[ms r0]|] eqn:Hm; [|discriminate].
      intros H. injection H as _ <-. apply IHm in Hm. lia. }
    destruct (Ascii.eqb c "[").
    { destruct (skip_ws rest) as [|c' rest']; [discriminate|]. simpl in Hrest.
      destruct (Ascii.eqb c' "]"); [intros H; injection H as _ <-; lia|].
      destruct (parse_elements fuel rest) as [[es r0]|] eqn:He; [|discriminate].
      intros H. injection H as _ <-. apply IHe in He. lia. }
    destruct (Ascii.eqb c dquote).
    { destruct (parse_string_body rest) as [[b r0]|] eqn:Hb; [|discriminate].
      intros H. injection H as _ <-.
      apply (length_parse_string_body _ _ _ _ (Nat.le_refl _)) in Hb. lia. }
    destruct (Ascii.eqb c "t").
    { destruct (expect "rue" rest) as [r0|] eqn:Hx; [|discriminate].
      intros H. injection H as _ <-. apply length_expect in Hx. lia. }
    destruct (Ascii.eqb c "f").
    { destruct (expect "alse" rest) as [r0|] eqn:Hx; [|discriminate].
      intros H. injection H as _ <-. apply length_expect in Hx. lia. }
    destruct (Ascii.eqb c "n").
    { destruct (expect "ull" rest) as [r0|] eqn:Hx; [|discriminate].
      intros H. injection H as _ <-. apply length_expect in Hx. lia. }
    destruct (parse_number (String c rest)) as [[x r0]|] eqn:Hn; [|discriminate].
    intros H. injection H as _ <-. apply length_parse_number in Hn. simpl in Hn. lia.
  - intros s vs r. cbn [parse_elements].
    destruct (parse_value fuel s) as [[v rest]|] eqn:Hv; [|discriminate].
    apply IHv in Hv. pose proof (length_skip_ws rest) as Hrest.
    destruct (skip_ws rest) as [|c rest']; [discriminate|]. simpl in Hrest.
    destruct (Ascii.eqb c ",").
    { destruct (parse_elements fuel rest') as [[es r0]|] eqn:He; [|discriminate].
      intros H. injection H as _ <-. apply IHe in He. lia. }
    destruct (Ascii.eqb c "]"); [|discriminate].
    intros H. injection H as _ <-. lia.
  - intros s ms r. cbn [parse_members].
    pose proof (length_skip_ws s) as Hs.
    destruct (skip_ws s) as [|q s1]; [discriminate|]. simpl in Hs.
    destruct (Ascii.eqb q dquote); [|discriminate].
    destruct (parse_string_body s1) as [[k s2]|] eqn:Hk; [|discriminate].
    apply (length_parse_string_body _ _ _ _ (Nat.le_refl _)) in Hk.
    pose proof (length_skip_ws s2) as Hs2.
    destruct (skip_ws s2) as [|colon s3]; [discriminate|]. simpl in Hs2.
    destruct (Ascii.eqb colon ":"); [|discriminate].
    destruct (parse_value fuel s3) as [[v rest]|] eqn:Hv; [|discriminate].
    apply IHv in Hv. pose proof (length_skip_ws rest) as Hrest.
    destruct (skip_ws rest) as [|c rest']; [discriminate|]. simpl in Hrest.
    destruct (Ascii.eqb c ",").
    { destruct (parse_members fuel rest') as [[ms0 r0]|] eqn:Hm; [|discriminate].
      intros H. injection H as _ <-. apply IHm in Hm. lia. }
    destruct (Ascii.eqb c "}"); [|discriminate].
    intros H. injection H as _ <-. lia.
Qed.

Lemma parse_elements_eq (fuel : nat) (s : string) :
  parse_elements (S fuel) s
  = match parse_value fuel s with
    | None => None
    | Some (v, rest) =>
        match skip_ws rest with
        | EmptyString => None
        | String c rest' =>
            if Ascii.eqb c "," then
              match parse_elements fuel rest' with
              | None => None
              | Some (vs, rest'') => Some (v :: vs, rest'')
              end
            else if Ascii.eqb c "]" then Some ([v], rest')
            else None
        end
    end.
Proof. reflexivity. Qed.

Lemma parse_members_eq (fuel : nat) (s : string) :
  parse_members (S fuel) s
  = match skip_ws s with
    | EmptyString => None
    | String q s1 =>
        if Ascii.eqb q dquote then
          match parse_string_body s1 with
          | None => None
          | Some (k, s2) =>
              match skip_ws s2 with
              | EmptyString => None
              | String colon s3 =>
                  if Ascii.eqb colon ":" then
                    match parse_value fuel s3 with
                    | None => None
                    | Some (v, rest) =>
                        match skip_ws rest with
                        | EmptyString => None
                        | String c rest' =>
                            if Ascii.eqb c "," then
                              match parse_members fuel rest' with
                              | None => None
                              | Some (ms, rest'') => Some ((k, v) :: ms, rest'')
                              end
                            else if Ascii.eqb c "}" then Some ([(k, v)], rest')
                            else None
                        end
                    end
                  else None
              end
          end
        else None
    end.
Proof. reflexivity. Qed.

(** One more unit of fuel changes nothing once there is enough of it: two
    units for each character, one more for a value, two more for a list
    of elements or of members. *)
Lemma fuel_step (n : nat) :
  forall s : string,
    (String.length s <= n)%nat ->
    (forall fuel, (2 * String.length s + 1 <= fuel)%nat ->
                  parse_value (S fuel) s = parse_value fuel s)
    /\ (forall fuel, (2 * String.length s + 2 <= fuel)%nat ->
                     parse_elements (S fuel) s = parse_elements fuel s)
    /\ (forall fuel, (2 * String.length s + 2 <= fuel)%nat ->
                     parse_members (S fuel) s = parse_members fuel s).
Proof.
  induction n as [|n IH]; intros s Hn.
  - destruct s; [|simpl in Hn; lia].
    repeat split; intros fuel Hfuel; (destruct fuel as [|fuel]; [simpl in Hfuel; lia|]);
      [reflexivity| |reflexivity].
    destruct fuel as [|fuel]; [simpl in Hfuel; lia|]. reflexivity.
  - assert (Hvalue : forall fuel, (2 * String.length s + 1 <= fuel)%nat ->
                                  parse_value (S fuel) s = parse_value fuel s).
    { intros fuel Hfuel. destruct fuel as [|fuel]; [lia|].
      cbn [parse_value].
      pose proof (length_skip_ws s) as Hs.
      destruct (skip_ws s) as [|c rest]; [reflexivity|]. simpl in Hs.
      destruct (IH rest) as (_ & IHe & IHm); [lia|].
      rewrite IHe by lia. rewrite IHm by lia. reflexivity. }
    split; [exact Hvalue|]. split.
    + intros fuel Hfuel. destruct fuel as [|fuel]; [lia|].
      rewrite (parse_elements_eq (S fuel)), (parse_elements_eq fuel).
      rewrite Hvalue by lia.
      destruct (parse_value fuel s) as [[v rest]|] eqn:Hv; [|reflexivity].
      apply (parser_consumes fuel) in Hv.
      pose proof (length_skip_ws rest) as Hrest.
      destruct (skip_ws rest) as [|c rest']; [reflexivity|]. simpl in Hrest.
      destruct (IH rest') as (_ & IHe & _); [lia|].
      rewrite IHe by lia. reflexivity.
    + intros fuel Hfuel. destruct fuel as [|fuel]; [lia|].
      rewrite (parse_members_eq (S fuel)), (parse_members_eq fuel).
      pose proof (length_skip_ws s) as Hs.
      destruct (skip_ws s) as [|q s1]; [reflexivity|]. simpl in Hs.
      destruct (Ascii.eqb q dquote); [|reflexivity].
      destruct (parse_string_body s1) as [[k s2]|] eqn:Hk; [|reflexivity].
      apply (length_parse_string_body _ _ _ _ (Nat.le_refl _)) in Hk.
      pose proof (length_skip_ws s2) as Hs2.
      destruct (skip_ws s2) as [|colon s3]; [reflexivity|]. simpl in Hs2.
      destruct (Ascii.eqb colon ":"); [|reflexivity].
      destruct (IH s3) as (IHv & _); [lia|].
      rewrite IHv by lia.
      destruct (parse_value fuel s3) as [[v rest]|] eqn:Hv; [|reflexivity].
      apply (parser_consumes fuel) in Hv.
      pose proof (length_skip_ws rest) as Hrest.
      destruct (skip_ws rest) as [|c rest']; [reflexivity|]. simpl in Hrest.
      destruct (IH rest') as (_ & _ & IHm); [lia|].
      rewrite IHm by lia. reflexivity.
Qed.

(** [JSON_parse] gives [parse_value] fuel that it never exhausts: with any
    larger amount the result is the same. *)
Lemma parse_fuel_enough (s : string) (fuel : nat) :
  (parse_fuel s <= fuel)%nat -> parse_value fuel s = parse_value (parse_fuel s) s.
Proof.
  intros Hfuel. induction Hfuel as [|fuel Hfuel IH]; [reflexivity|].
  rewrite <- IH. apply (fuel_step (String.length s) s (Nat.le_refl _)).
  unfold parse_fuel in Hfuel. lia.
Qed.

(* ===================================================================== *)
(** * Deep equality *)
(* ===================================================================== *)

Lemma same_number_refl (x : JSNumber) : same_number x x = true.
Proof.
  destruct x as [z | m e | | neg]; simpl.
  - apply Z.eqb_refl.
  - rewrite Z.eqb_refl, Pos.eqb_refl. reflexivity.
  - reflexivity.
  - destruct neg; reflexivity.
Qed.

(** With distinct names, looking a property up by its name finds it. *)
Lemma property_found (props : list (string * JSValue)) :
  distinct (map fst props) = true ->
  forall kv, In kv props -> property (fst kv) props = Some (snd kv).
Proof.
  induction props as [|[k v] props IH]; intros Hd kv Hin; [destruct Hin|].
  cbn [map fst distinct] in Hd. apply andb_true_iff in Hd as [Hfresh Hd].
  apply negb_true_iff in Hfresh. cbn [property].
  destruct Hin as [<- | Hin]; [simpl; rewrite String.eqb_refl; reflexivity|].
  destruct (String.eqb (fst kv) k) eqn:E; [|apply IH; assumption].
  apply String.eqb_eq in E. subst k. exfalso.
  assert (existsb (String.eqb (fst kv)) (map fst props) = true); [|congruence].
  apply existsb_exists. exists (fst kv). split; [|apply String.eqb_refl].
  apply in_map. exact Hin.
Qed.

(** A representable value is deep-equal to itself. *)
Lemma deep_equal_refl (v : JSValue) :
  representable v = true -> deep_equal v v = true.
Proof.
  induction v as [| |b|x|s|elems IH|props IH] using JSValue_ind; intros Hrep.
  - reflexivity.
  - reflexivity.
  - destruct b; reflexivity.
  - apply same_number_refl.
  - apply String.eqb_refl.
  - cbn [representable] in Hrep. cbn [deep_equal].
    induction IH as [|e es He Hes IHes]; [reflexivity|].
    cbn [forallb] in Hrep. apply andb_true_iff in Hrep as [Hre Hres].
    rewrite (He Hre). exact (IHes Hres).
  - cbn [representable] in Hrep. apply andb_true_iff in Hrep as [Hrep Hd].
    cbn [deep_equal]. rewrite Nat.eqb_refl. cbn [andb].
    pose proof (property_found props Hd) as Hfound.
    match goal with |- ?f props = true => set (all := f) end.
    assert (Hgen : forall ps,
              (forall kv, In kv ps -> In kv props) ->
              Forall (fun kv => representable (snd kv) = true ->
                                deep_equal (snd kv) (snd kv) = true) ps ->
              forallb (fun kv => representable (snd kv)) ps = true ->
              all ps = true).
    { intros ps Hsub Hall. induction Hall as [|kv ps Hkv Hps IHps]; intros Hr; [reflexivity|].
      cbn [forallb] in Hr. apply andb_true_iff in Hr as [Hre Hres].
      subst all. cbn beta iota.
      rewrite (Hfound kv) by (apply Hsub; left; reflexivity).
      rewrite (Hkv Hre). cbn [andb].
      apply IHps; [|exact Hres]. intros kv' Hin. apply Hsub. right. exact Hin. }
    apply Hgen; [auto|exact IH|exact Hrep].
Qed.

(* ===================================================================== *)
(** * Round trips *)
(* ===================================================================== *)

Lemma setFn_primitive (this : TypeSafeStore.t) (key : string) (v : JSValue) :
  is_primitive v = true ->
  TypeSafeStore.value (TypeSafeStore.setFn this key v) = Some (ToString v).
Proof. unfold TypeSafeStore.setFn, is_primitive. simpl. intros ->. reflexivity. Qed.

Lemma setFn_structured (this : TypeSafeStore.t) (key : string) (v : JSValue) :
  is_primitive v = false ->
  TypeSafeStore.value (TypeSafeStore.setFn this key v) = JSON_stringify v.
Proof. unfold TypeSafeStore.setFn, is_primitive. simpl. intros ->. reflexivity. Qed.

Lemma read_back_is_primitive (v : JSValue) :
  Spec.read_back_as_written v = true -> is_primitive v = true.
Proof. destruct v; simpl; intros H; try discriminate H; reflexivity. Qed.

(** The candidate decoded from what [String] wrote is the value itself. *)
Lemma candidate_of_written (v : JSValue) :
  Spec.read_back_as_written v = true -> Spec.candidate (ToString v) = v.
Proof.
  unfold Spec.candidate. destruct v as [| |b|x|s|elems|props]; simpl; intros H;
    try discriminate H.
  - destruct b; reflexivity.
  - apply andb_true_iff in H as [Hfin Hwf].
    rewrite (JSON_parse_number x Hfin Hwf). reflexivity.
  - destruct (JS.JSON_parse s); [discriminate H|reflexivity].
Qed.

(** The candidate decoded from what [JSON.stringify] wrote is the value
    itself, for a representable value. *)
Lemma candidate_of_stringified (v : JSValue) :
  representable v = true -> Spec.candidate (text_of v) = v.
Proof.
  intros Hrep. unfold Spec.candidate. rewrite (JSON_parse_text v Hrep). reflexivity.
Qed.

(** C2 (amended). For every key and every primitive [v] that is a boolean,
    a finite number, or a string that is not itself a JSON text: when the
    schema accepts [v] with data [d] and the backend calls do not raise,
    [set(k, v)] completes with [true] and the [get(k, fallback, s)] that
    follows returns [d], not the fallback.  The schema receives [v]
    itself, so no coercion is needed. *)
Theorem C2_primitive_round_trip {T} (this : TypeSafeStore.t) (key : string) (v : JSValue)
    (fallback : T) (schema : ZodSchema T) (d : T) (w : World) :
  Spec.read_back_as_written v = true ->
  safeParse schema v = ParseSuccess d ->
  raises w (CSetItem (TypeSafeStore.getNamespacedKey this key) (ToString v)) = false ->
  raises w (CGetItem (TypeSafeStore.getNamespacedKey this key)) = false ->
  fst (TypeSafeStore.set this key v w) = Normal true
  /\ fst (TypeSafeStore.get this key fallback schema (snd (TypeSafeStore.set this key v w)))
     = Normal d.
Proof.
  intros Hv Hschema Hset Hget.
  pose proof (setFn_primitive this key v (read_back_is_primitive v Hv)) as Hstored.
  destruct (set_then_get this key v (ToString v) fallback schema w Hstored Hset Hget)
    as (Hdone & Hread).
  split; [exact Hdone|].
  rewrite Hread, (candidate_of_written v Hv).
  unfold Spec.validated. rewrite Hschema. reflexivity.
Qed.

(** C5 (amended). For every key and every structured value [v] made of
    [null], booleans, finite numbers, strings, arrays and objects without
    a repeated property name ([undefined] and the non-finite numbers
    excluded): when the schema accepts [v] with data [d] deep-equal to [v]
    and the backend calls do not raise, [set(k, v)] completes with [true]
    and the [get(k, fallback, s)] that follows returns [d]. *)
Theorem C5_structured_round_trip (this : TypeSafeStore.t) (key : string) (v : JSValue)
    (fallback : JSValue) (schema : ZodSchema JSValue) (d : JSValue) (w : World) :
  is_primitive v = false ->
  representable v = true ->
  safeParse schema v = ParseSuccess d ->
  deep_equal d v = true ->
  raises w (CSetItem (TypeSafeStore.getNamespacedKey this key) (text_of v)) = false ->
  raises w (CGetItem (TypeSafeStore.getNamespacedKey this key)) = false ->
  fst (TypeSafeStore.set this key v w) = Normal true
  /\ exists r,
       fst (TypeSafeStore.get this key fallback schema (snd (TypeSafeStore.set this key v w)))
       = Normal r
       /\ deep_equal r v = true.
Proof.
  intros Hstruct Hrep Hschema Hdeep Hset Hget.
  assert (Hstored : TypeSafeStore.value (TypeSafeStore.setFn this key v) = Some (text_of v)).
  { rewrite (setFn_structured this key v Hstruct). apply representable_stringify, Hrep. }
  destruct (set_then_get this key v (text_of v) fallback schema w Hstored Hset Hget)
    as (Hdone & Hread).
  split; [exact Hdone|]. exists d. split; [|exact Hdeep].
  rewrite Hread, (candidate_of_stringified v Hrep).
  unfold Spec.validated. rewrite Hschema. reflexivity.
Qed.

(** C2 as stated fails.  The string ["123"] is a primitive and [z.string()]
    matches its type and accepts it; yet after [set("k", "123")],
    [get("k", "fallback", z.string())] returns the fallback: the text read
    is the JSON number 123, which the schema refuses.  And the string
    made of a quoted [a] comes back as the one-character string ["a"]. *)
Lemma C2_fails_on_json_like_strings :
  let w := Examples.quiet ∅ false in
  let st := Index.defaultStore in
  is_primitive (JStr "123") = true
  /\ safeParse z_string (JStr "123") = ParseSuccess (JStr "123")
  /\ fst (TypeSafeStore.set st "k" (JStr "123") w) = Normal true
  /\ fst (TypeSafeStore.get st "k" (JStr "fallback") z_string
            (snd (TypeSafeStore.set st "k" (JStr "123") w)))
     = Normal (JStr "fallback")
  /\ safeParse z_string (JStr Examples.quoted_a) = ParseSuccess (JStr Examples.quoted_a)
  /\ fst (TypeSafeStore.get st "k" (JStr "fallback") z_string
            (snd (TypeSafeStore.set st "k" (JStr Examples.quoted_a) w)))
     = Normal (JStr "a").
Proof. vm_compute. repeat split. Qed.

(** C5 as stated fails.  The array [[undefined]] is structured and
    [z.array(z.undefined())] accepts it; yet after [set("k", [undefined])]
    the text stored is [[null]], so [get] with that schema returns the
    fallback, and [get] with [z.array(z.any())] returns [[null]]: neither
    is deep-equal to [[undefined]]. *)
Lemma C5_fails_on_undefined_element :
  let w := Examples.quiet ∅ false in
  let st := Index.defaultStore in
  let v := JArr [JUndefined] in
  is_primitive v = false
  /\ safeParse z_array_of_undefined v = ParseSuccess v
  /\ safeParse z_array_of_any v = ParseSuccess v
  /\ deep_equal v v = true
  /\ fst (TypeSafeStore.set st "k" v w) = Normal true
  /\ items (snd (TypeSafeStore.set st "k" v w)) !! "k" = Some "[null]"
  /\ fst (TypeSafeStore.get st "k" JNull z_array_of_undefined
            (snd (TypeSafeStore.set st "k" v w)))
     = Normal JNull
  /\ deep_equal JNull v = false
  /\ fst (TypeSafeStore.get st "k" JNull z_array_of_any
            (snd (TypeSafeStore.set st "k" v w)))
     = Normal (JArr [JNull])
  /\ deep_equal (JArr [JNull]) v = false.
Proof. vm_compute. repeat split. Qed.

(* ===================================================================== *)
(** * The theorems at concrete inputs *)
(* ===================================================================== *)

(** The store ["app"] holds the text [42] under ["n"]: [get] and
    [getAsync] with [z.number()] return the number 42. *)
Lemma C1_witness :
  let st := TypeSafeStore.constructor (Some "app") in
  let w := Examples.quiet {[ "app:n" := "42" ]} false in
  TypeSafeStore.get st "n" (JNum (NInt 0)) z_number w = (Normal (JNum (NInt 42)), w)
  /\ TypeSafeStore.getAsync st "n" (JNum (NInt 0)) z_number w = (Normal (JNum (NInt 42)), w).
Proof.
  exact (C1_get_validates_or_falls_back (TypeSafeStore.constructor (Some "app")) "n"
           (JNum (NInt 0)) z_number (Examples.quiet {[ "app:n" := "42" ]} false)
           eq_refl eq_refl).
Defined.

(** The number 42 written under ["n"] is read back with [z.number()]. *)
Lemma C2_witness :
  let w := Examples.quiet ∅ false in
  fst (TypeSafeStore.set Index.defaultStore "n" (JNum (NInt 42)) w) = Normal true
  /\ fst (TypeSafeStore.get Index.defaultStore "n" (JNum (NInt 0)) z_number
            (snd (TypeSafeStore.set Index.defaultStore "n" (JNum (NInt 42)) w)))
     = Normal (JNum (NInt 42)).
Proof.
  exact (C2_primitive_round_trip Index.defaultStore "n" (JNum (NInt 42)) (JNum (NInt 0))
           z_number (JNum (NInt 42)) (Examples.quiet ∅ false)
           eq_refl eq_refl eq_refl eq_refl).
Defined.

(** The array [[1, "x", null]] written under ["list"] is read back. *)
Lemma C5_witness :
  let w := Examples.quiet ∅ false in
  let v := JArr [JNum (NInt 1); JStr "x"; JNull] in
  fst (TypeSafeStore.set Index.defaultStore "list" v w) = Normal true
  /\ exists r,
       fst (TypeSafeStore.get Index.defaultStore "list" JNull z_array_of_any
              (snd (TypeSafeStore.set Index.defaultStore "list" v w)))
       = Normal r
       /\ deep_equal r v = true.
Proof.
  exact (C5_structured_round_trip Index.defaultStore "list"
           (JArr [JNum (NInt 1); JStr "x"; JNull]) JNull z_array_of_any
           (JArr [JNum (NInt 1); JStr "x"; JNull]) (Examples.quiet ∅ false)
           eq_refl eq_refl eq_refl eq_refl eq_refl eq_refl).
Defined.


(** [setWithExpiration("k", "v", 50)] on store ["a"]: the entry is there
    at once, and gone once 50 ms have passed and the loop has run. *)
Lemma C7_witness :
  let A := TypeSafeStore.constructor (Some "a") in
  let w := Examples.quiet ∅ false in
  let w1 := snd (TypeSafeStore.setWithExpiration A "k" (JStr "v") 50 w) in
  items w1 !! "a:k" = Some "v"
  /\ fst (TypeSafeStore.existsAsync A "k" w1) = Normal true
  /\ fst (TypeSafeStore.existsAsync A "k" (EventLoop.advance 50 w1)) = Normal false.
Proof.
  pose proof (C7_setWithExpiration_deletes_later (TypeSafeStore.constructor (Some "a")) "k"
                (JStr "v") 50 (Examples.quiet ∅ false) eq_refl eq_refl eq_refl)
    as (_ & Hitems & _ & _ & Hnow & _ & Hlater & _).
  split; [exact Hitems|].
  split; [rewrite Hnow; reflexivity|].
  destruct (Hlater 50%nat) as (_ & _ & Hgone); [vm_compute; lia|].
  rewrite Hgone. reflexivity.
Defined.

(** Removing a key that is not there: [true] where the backend lets it
    pass, [false] where the backend's delete raises; the call never
    throws. *)
Lemma removeAsync_missing_key :
  fst (Index.remove "absent" None (Examples.quiet ∅ false)) = Normal true
  /\ fst (Index.remove "absent" None (Examples.locked ∅)) = Normal false.
Proof. split; reflexivity. Qed.

(* ===================================================================== *)
(** * More on key formation *)
(* ===================================================================== *)

Lemma getNamespacedKey_prefix (this : TypeSafeStore.t) (key : string) :
  TypeSafeStore.getNamespacedKey this key = Keys.prefix this ++ key.
Proof.
  unfold TypeSafeStore.getNamespacedKey, Keys.prefix, Keys.effective.
  destruct (TypeSafeStore.namespace this) as [ns|]; [|reflexivity].
  destruct (truthy ns); [|reflexivity].
  rewrite app_assoc_string. reflexivity.
Qed.

Lemma app_inv_head_string (a x y : string) : a ++ x = a ++ y -> x = y.
Proof.
  induction a as [|c a IH]; simpl; intros H; [exact H|].
  injection H as H. apply IH, H.
Qed.

Lemma app_same_length (a b x y : string) :
  String.length a = String.length b -> a ++ x = b ++ y -> a = b /\ x = y.
Proof.
  revert b. induction a as [|c a IH]; intros [|d b] Hlen H; simpl in *; try discriminate.
  - split; [reflexivity|exact H].
  - injection H as -> H. injection Hlen as Hlen.
    destruct (IH b Hlen H) as [-> ->]. split; reflexivity.
Qed.

Lemma app_inv_tail_string (a b k : string) : a ++ k = b ++ k -> a = b.
Proof.
  intros H. apply (app_same_length a b k k); [|exact H].
  apply (f_equal String.length) in H. rewrite !length_app_string in H. lia.
Qed.

Lemma prefix_of_effective (this : TypeSafeStore.t) :
  Keys.prefix this = match Keys.effective this with
                     | Some ns => ns ++ ":"
                     | None => ""
                     end.
Proof. reflexivity. Qed.

Lemma prefix_determines_effective (s1 s2 : TypeSafeStore.t) :
  Keys.prefix s1 = Keys.prefix s2 -> Keys.effective s1 = Keys.effective s2.
Proof.
  rewrite !prefix_of_effective.
  destruct (Keys.effective s1) as [n1|], (Keys.effective s2) as [n2|]; intros H.
  - apply app_inv_tail_string in H. congruence.
  - destruct n1; discriminate H.
  - destruct n2; discriminate H.
  - reflexivity.
Qed.

(** X1. Within one store, two logical keys form the same backend key only
    when they are the same key: the store never makes two of its keys
    share an entry. *)
Theorem X1_keys_of_a_store_do_not_collide (this : TypeSafeStore.t) (k1 k2 : string) :
  TypeSafeStore.getNamespacedKey this k1 = TypeSafeStore.getNamespacedKey this k2
  <-> k1 = k2.
Proof.
  split; [|intros ->; reflexivity].
  rewrite !getNamespacedKey_prefix. apply app_inv_head_string.
Qed.

Lemma same_key_same_namespace (s1 s2 : TypeSafeStore.t) (key : string) :
  TypeSafeStore.getNamespacedKey s1 key = TypeSafeStore.getNamespacedKey s2 key
  <-> Keys.effective s1 = Keys.effective s2.
Proof.
  rewrite !getNamespacedKey_prefix. split.
  - intros H. apply prefix_determines_effective, (app_inv_tail_string _ _ key), H.
  - intros H. rewrite !prefix_of_effective, H. reflexivity.
Qed.

(** X2. Two stores form the same backend key for one logical key exactly
    when they use the same namespace, an unset namespace and the empty
    one counting as none. *)
Theorem X2_same_key_collides_iff_same_namespace (s1 s2 : TypeSafeStore.t) (key : string) :
  TypeSafeStore.getNamespacedKey s1 key = TypeSafeStore.getNamespacedKey s2 key
  <-> Keys.effective s1 = Keys.effective s2.
Proof. apply same_key_same_namespace. Qed.





(* ===================================================================== *)
(** * Writes, reads and removals together *)
(* ===================================================================== *)

Lemma setItem_completed (key : string) (value : option string) (w : World) :
  fst (SecureStore.setItem key value w) = Normal tt ->
  exists stored, value = Some stored /\ raises w (CSetItem key stored) = false.
Proof.
  unfold SecureStore.setItem. destruct value as [stored|]; [|discriminate].
  destruct (raises w (CSetItem key stored)) eqn:Hr; [discriminate|].
  intros _. exists stored. split; [reflexivity|exact Hr].
Qed.

(** X4. [set] and [setAsync] either complete with [true], having put the
    serialized value at the namespaced key, or throw and leave the world
    as it was; they never return [false].  In both cases every other
    entry, the timers and the clock are untouched. *)
Theorem X4_set_writes_one_key_or_nothing (this : TypeSafeStore.t) (key : string)
    (value : JSValue) (w : World) :
  let nk := TypeSafeStore.getNamespacedKey this key in
  let serialized := TypeSafeStore.value (TypeSafeStore.setFn this key value) in
  let after := snd (TypeSafeStore.set this key value w) in
  let afterAsync := snd (TypeSafeStore.setAsync this key value w) in
  ((fst (TypeSafeStore.set this key value w) = Normal true /\ items after !! nk = serialized)
   \/ (fst (TypeSafeStore.set this key value w) = Throw SecureStoreError /\ after = w))
  /\ ((fst (TypeSafeStore.setAsync this key value w) = Normal true
       /\ items afterAsync !! nk = serialized)
      \/ (fst (TypeSafeStore.setAsync this key value w) = Throw SecureStoreError
          /\ afterAsync = w))
  /\ (forall other, other <> nk ->
        items after !! other = items w !! other
        /\ items afterAsync !! other = items w !! other)
  /\ timers after = timers w /\ clock after = clock w
  /\ timers afterAsync = timers w /\ clock afterAsync = clock w.
Proof.
  intros nk serialized after afterAsync.
  subst after afterAsync.
  unfold TypeSafeStore.set, TypeSafeStore.setAsync, bind, ret,
    SecureStore.setItem, SecureStore.setItemAsync.
  change (TypeSafeStore.key (TypeSafeStore.setFn this key value)) with nk.
  fold serialized. destruct serialized as [stored|].
  - destruct (raises w (CSetItem nk stored)), (raises w (CSetItemAsync nk stored)); simpl;
      (split; [|split]);
      try (first [ left; split; [reflexivity|apply lookup_insert_eq]
                 | right; split; reflexivity ]);
      repeat split; try reflexivity;
      try (apply lookup_insert_ne; congruence).
  - simpl. split; [right; split; reflexivity|].
    split; [right; split; reflexivity|]. repeat split.
Qed.

(** X5. The four reads, [get], [getAsync], [exists] and [existsAsync],
    never change the world.  Each throws exactly when the backend's read
    raises: the error is passed on, the fallback is not returned for it.
    The [SyntaxError] of [JSON.parse] never leaves [get] or [getAsync]. *)
Theorem X5_reads_change_nothing_and_pass_errors_on {T} (this : TypeSafeStore.t)
    (key : string) (fallback : T) (schema : ZodSchema T) (w : World) :
  let nk := TypeSafeStore.getNamespacedKey this key in
  snd (TypeSafeStore.get this key fallback schema w) = w
  /\ snd (TypeSafeStore.getAsync this key fallback schema w) = w
  /\ snd (TypeSafeStore.exists_ this key w) = w
  /\ snd (TypeSafeStore.existsAsync this key w) = w
  /\ (fst (TypeSafeStore.get this key fallback schema w) = Throw SecureStoreError
      <-> raises w (CGetItem nk) = true)
  /\ (fst (TypeSafeStore.getAsync this key fallback schema w) = Throw SecureStoreError
      <-> raises w (CGetItemAsync nk) = true)
  /\ (fst (TypeSafeStore.exists_ this key w) = Throw SecureStoreError
      <-> raises w (CGetItem nk) = true)
  /\ (fst (TypeSafeStore.existsAsync this key w) = Throw SecureStoreError
      <-> raises w (CGetItemAsync nk) = true)
  /\ fst (TypeSafeStore.get this key fallback schema w) <> Throw SyntaxError
  /\ fst (TypeSafeStore.getAsync this key fallback schema w) <> Throw SyntaxError.
Proof.
  intros nk.
  unfold TypeSafeStore.get, TypeSafeStore.getAsync, TypeSafeStore.exists_,
    TypeSafeStore.existsAsync, bind, SecureStore.getItem, SecureStore.getItemAsync.
  fold nk.
  destruct (raises w (CGetItem nk)), (raises w (CGetItemAsync nk));
    destruct (items w !! nk) as [item|]; rewrite ?parsed_is_candidate; simpl;
    repeat split; intros; congruence.
Qed.

(** X6. After a [set] that completed, [exists] and [existsAsync] answer
    [true] for the key, also when the stored text fails the schema and
    [get] returns the fallback: [exists] tells an entry the schema refuses
    from a missing one, [get] does not. *)
Theorem X6_exists_after_set {T} (this : TypeSafeStore.t) (key : string) (value : JSValue)
    (fallback : T) (schema : ZodSchema T) (w : World) :
  let nk := TypeSafeStore.getNamespacedKey this key in
  let serialized := TypeSafeStore.value (TypeSafeStore.setFn this key value) in
  let w1 := snd (TypeSafeStore.set this key value w) in
  fst (SecureStore.setItem nk serialized w) = Normal tt ->
  raises w (CGetItem nk) = false ->
  raises w (CGetItemAsync nk) = false ->
  fst (TypeSafeStore.exists_ this key w1) = Normal true
  /\ fst (TypeSafeStore.existsAsync this key w1) = Normal true
  /\ fst (TypeSafeStore.get this key fallback schema w1)
     = Normal (match serialized with
               | Some stored => Spec.validated schema fallback (Spec.candidate stored)
               | None => fallback
               end)
  /\ (forall stored,
        serialized = Some stored ->
        safeParse schema (Spec.candidate stored) = ParseFailure ->
        fst (TypeSafeStore.get this key fallback schema w1) = Normal fallback).
Proof.
  intros nk serialized w1 Hwrite Hget Hgeta.
  destruct (setItem_completed nk serialized w Hwrite) as (stored & Hstored & Hset).
  subst w1. rewrite (set_writes this key value stored w Hstored Hset). fold nk. simpl.
  rewrite exists_reads by exact Hget. rewrite existsAsync_reads by exact Hgeta.
  rewrite get_reads by exact Hget. fold nk. simpl.
  rewrite lookup_insert_eq, Hstored. simpl.
  repeat split.
  intros stored' Heq Hfail. injection Heq as <-.
  unfold Spec.validated. rewrite Hfail. reflexivity.
Qed.

(** The text ["oops"] stored under ["n"] fails [z.number()]: [get] returns
    the fallback, [exists] answers [true]. *)
Lemma X6_witness :
  let w1 := snd (TypeSafeStore.set Index.defaultStore "n" (JStr "oops")
                   (Examples.quiet ∅ false)) in
  fst (TypeSafeStore.exists_ Index.defaultStore "n" w1) = Normal true
  /\ fst (TypeSafeStore.get Index.defaultStore "n" (JNum (NInt 0)) z_number w1)
     = Normal (JNum (NInt 0)).
Proof.
  pose proof (X6_exists_after_set Index.defaultStore "n" (JStr "oops") (JNum (NInt 0))
                z_number (Examples.quiet ∅ false) eq_refl eq_refl eq_refl)
    as (Hexists & _ & _ & Hget).
  split; [exact Hexists|]. exact (Hget "oops" eq_refl eq_refl).
Defined.

Lemma removeAsync_runs (this : TypeSafeStore.t) (key : string)
    (options : option SecureStoreOptions) (w : World) :
  TypeSafeStore.removeAsync this key options w
  = (if raises w (CDeleteItemAsync (TypeSafeStore.getNamespacedKey this key) options)
     then (Normal false, w)
     else (Normal true,
           with_items w (delete (TypeSafeStore.getNamespacedKey this key) (items w)))).
Proof.
  unfold TypeSafeStore.removeAsync, try_catch, bind, ret, SecureStore.deleteItemAsync.
  destruct (raises w _); reflexivity.
Qed.

(** X7. After a [removeAsync] whose backend delete did not raise: the
    result is [true], [exists] and [existsAsync] answer [false], [get] and
    [getAsync] return the fallback whatever the schema, every other entry
    is as before, and removing the key once more changes nothing. *)
Theorem X7_removed_key_reads_as_missing {T} (this : TypeSafeStore.t) (key : string)
    (options : option SecureStoreOptions) (fallback : T) (schema : ZodSchema T)
    (w : World) :
  let nk := TypeSafeStore.getNamespacedKey this key in
  let w1 := snd (TypeSafeStore.removeAsync this key options w) in
  raises w (CDeleteItemAsync nk options) = false ->
  raises w (CGetItem nk) = false ->
  raises w (CGetItemAsync nk) = false ->
  fst (TypeSafeStore.removeAsync this key options w) = Normal true
  /\ fst (TypeSafeStore.exists_ this key w1) = Normal false
  /\ fst (TypeSafeStore.existsAsync this key w1) = Normal false
  /\ fst (TypeSafeStore.get this key fallback schema w1) = Normal fallback
  /\ fst (TypeSafeStore.getAsync this key fallback schema w1) = Normal fallback
  /\ (forall other, other <> nk -> items w1 !! other = items w !! other)
  /\ TypeSafeStore.removeAsync this key options w1 = (Normal true, w1).
Proof.
  intros nk w1 Hdel Hget Hgeta. subst w1 nk.
  rewrite removeAsync_runs, Hdel. simpl.
  rewrite exists_reads by exact Hget. rewrite existsAsync_reads by exact Hgeta.
  rewrite get_reads by exact Hget. rewrite getAsync_reads by exact Hgeta.
  simpl. rewrite lookup_delete_eq. simpl.
  repeat split.
  - intros other Hother. apply lookup_delete_ne. congruence.
  - rewrite removeAsync_runs. simpl. rewrite Hdel.
    unfold with_items. simpl. rewrite delete_delete_eq. reflexivity.
Qed.

(** The entry ["k"] of the default store is removed. *)
Lemma X7_witness :
  let w := Examples.quiet {[ "k" := "v" ]} false in
  let w1 := snd (Index.remove "k" None w) in
  fst (Index.remove "k" None w) = Normal true
  /\ fst (Index.exists_ "k" w) = Normal true
  /\ fst (Index.exists_ "k" w1) = Normal false
  /\ fst (Index.get "k" (JStr "none") z_string w1) = Normal (JStr "none").
Proof.
  pose proof (X7_removed_key_reads_as_missing Index.defaultStore "k" None (JStr "none")
                z_string (Examples.quiet {[ "k" := "v" ]} false) eq_refl eq_refl eq_refl)
    as (Hdone & Hexists & _ & Hget & _).
  split; [exact Hdone|]. split; [reflexivity|]. split; [exact Hexists|exact Hget].
Defined.

(** X8. The last write wins: when two [set]s on one key complete, the
    world after both is the world after the second alone. *)
Theorem X8_last_write_wins (this : TypeSafeStore.t) (key : string) (v1 v2 : JSValue)
    (w : World) :
  let nk := TypeSafeStore.getNamespacedKey this key in
  fst (SecureStore.setItem nk (TypeSafeStore.value (TypeSafeStore.setFn this key v1)) w)
  = Normal tt ->
  fst (SecureStore.setItem nk (TypeSafeStore.value (TypeSafeStore.setFn this key v2)) w)
  = Normal tt ->
  TypeSafeStore.set this key v2 (snd (TypeSafeStore.set this key v1 w))
  = TypeSafeStore.set this key v2 w.
Proof.
  intros nk H1 H2.
  destruct (setItem_completed nk _ w H1) as (s1 & Hs1 & Hr1).
  destruct (setItem_completed nk _ w H2) as (s2 & Hs2 & Hr2).
  rewrite (set_writes this key v1 s1 w Hs1 Hr1). simpl.
  rewrite (set_writes this key v2 s2 w Hs2 Hr2).
  rewrite (set_writes this key v2 s2 _ Hs2) by exact Hr2.
  unfold with_items. simpl. fold nk. rewrite insert_insert_eq. reflexivity.
Qed.

(** ["k"] is set to 1 and then to the string ["two"]. *)
Lemma X8_witness :
  let w := Examples.quiet ∅ false in
  TypeSafeStore.set Index.defaultStore "k" (JStr "two")
    (snd (TypeSafeStore.set Index.defaultStore "k" (JNum (NInt 1)) w))
  = TypeSafeStore.set Index.defaultStore "k" (JStr "two") w.
Proof.
  exact (X8_last_write_wins Index.defaultStore "k" (JNum (NInt 1)) (JStr "two")
           (Examples.quiet ∅ false) eq_refl eq_refl).
Defined.

(* ===================================================================== *)
(** * More on expiration *)
(* ===================================================================== *)

(** X9. A later [set] does not cancel the expiration: when
    [setWithExpiration(k, v, ttl)] is followed by [set(k, v2)], the second
    value is the one stored, and once [ttl] has elapsed since the first
    call and the loop has run, the entry is gone all the same. *)
Theorem X9_overwrite_does_not_cancel_expiration (this : TypeSafeStore.t) (key : string)
    (v v2 : JSValue) (ttl : Z) (elapsed : nat) (w : World) :
  let nk := TypeSafeStore.getNamespacedKey this key in
  let w1 := snd (TypeSafeStore.setWithExpiration this key v ttl w) in
  let w2 := snd (TypeSafeStore.set this key v2 w1) in
  let w3 := EventLoop.advance elapsed w2 in
  fst (SecureStore.setItemAsync nk (TypeSafeStore.value (TypeSafeStore.setFn this key v)) w)
  = Normal tt ->
  fst (SecureStore.setItem nk (TypeSafeStore.value (TypeSafeStore.setFn this key v2)) w)
  = Normal tt ->
  raises w (CDeleteItemAsync nk None) = false ->
  raises w (CGetItemAsync nk) = false ->
  (Z.to_nat ttl <= elapsed)%nat ->
  fst (TypeSafeStore.set this key v2 w1) = Normal true
  /\ items w2 !! nk = TypeSafeStore.value (TypeSafeStore.setFn this key v2)
  /\ fst (TypeSafeStore.existsAsync this key w2) = Normal true
  /\ items w3 !! nk = None
  /\ fst (TypeSafeStore.existsAsync this key w3) = Normal false.
Proof.
  intros nk w1 w2 w3 Hw1 Hw2 Hdel Hget Hge.
  destruct (setItemAsync_completed nk _ w Hw1) as (s1 & Hs1 & Hr1).
  destruct (setItem_completed nk _ w Hw2) as (s2 & Hs2 & Hr2).
  subst w3 w2 w1.
  rewrite (setWithExpiration_writes this key v ttl s1 w Hs1 Hr1). fold nk.
  rewrite (set_writes this key v2 s2 _ Hs2) by exact Hr2. fold nk. rewrite Hs2.
  cbn [fst snd].
  split; [reflexivity|]. split; [apply lookup_insert_eq|].
  split; [rewrite existsAsync_reads by exact Hget; fold nk; simpl;
          rewrite lookup_insert_eq; reflexivity|].
  match goal with |- context [EventLoop.advance elapsed ?w0] => set (u := w0) end.
  destruct (advance_world elapsed u) as (Hr & _).
  assert (Hgone : items (EventLoop.advance elapsed u) !! nk = None).
  { rewrite advance_unfold.
    apply fire_all_deletes with (d := (clock w + Z.to_nat ttl)%nat); [|exact Hdel].
    apply filter_In. split.
    - subst u. simpl. apply in_or_app. right. left. reflexivity.
    - unfold EventLoop.is_due. subst u. simpl. apply Nat.leb_le. lia. }
  split; [exact Hgone|].
  rewrite existsAsync_reads by (rewrite Hr; exact Hget). fold nk.
  rewrite Hgone. reflexivity.
Qed.

(** A session token set for one second, then replaced for good: after the
    second it is gone. *)
Lemma X9_witness :
  let st := TypeSafeStore.constructor (Some "app") in
  let w1 := snd (TypeSafeStore.setWithExpiration st "token" (JStr "short") 1000
                   (Examples.quiet ∅ false)) in
  let w2 := snd (TypeSafeStore.set st "token" (JStr "lasting") w1) in
  items w2 !! "app:token" = Some "lasting"
  /\ fst (TypeSafeStore.existsAsync st "token" (EventLoop.advance 1000 w2)) = Normal false.
Proof.
  pose proof (X9_overwrite_does_not_cancel_expiration (TypeSafeStore.constructor (Some "app"))
                "token" (JStr "short") (JStr "lasting") 1000 1000 (Examples.quiet ∅ false)
                eq_refl eq_refl eq_refl eq_refl) as H.
  destruct H as (_ & Hstored & _ & _ & Hgone); [vm_compute; lia|].
  split; [exact Hstored|exact Hgone].
Defined.

(** X10. When the backend's write does not complete, [setWithExpiration]
    throws and the world is as before: no timer is set, so the call
    leaves no deletion behind. *)
Theorem X10_failed_write_sets_no_timer (this : TypeSafeStore.t) (key : string)
    (value : JSValue) (ttl : Z) (w : World) :
  fst (SecureStore.setItemAsync (TypeSafeStore.getNamespacedKey this key)
         (TypeSafeStore.value (TypeSafeStore.setFn this key value)) w) <> Normal tt ->
  TypeSafeStore.setWithExpiration this key value ttl w = (Throw SecureStoreError, w).
Proof.
  unfold TypeSafeStore.setWithExpiration, bind, SecureStore.setItemAsync.
  change (TypeSafeStore.key (TypeSafeStore.setFn this key value))
    with (TypeSafeStore.getNamespacedKey this key).
  destruct (TypeSafeStore.value (TypeSafeStore.setFn this key value)) as [stored|];
    [|reflexivity].
  destruct (raises w (CSetItemAsync _ stored)); [reflexivity|].
  simpl. intros H. exfalso. apply H. reflexivity.
Qed.

(** On a device that refuses writes, the entry already there is not
    given an expiration. *)
Lemma X10_witness :
  let w := Devices.read_only {[ "k" := "old" ]} in
  TypeSafeStore.setWithExpiration Index.defaultStore "k" (JStr "new") 10 w
  = (Throw SecureStoreError, w)
  /\ items (EventLoop.advance 10 w) !! "k" = Some "old".
Proof.
  split; [|reflexivity].
  apply (X10_failed_write_sets_no_timer Index.defaultStore "k" (JStr "new") 10
           (Devices.read_only {[ "k" := "old" ]})).
  discriminate.
Defined.

Lemma fire_keeps_undeletable (w : World) (t : Timer) (key : string) :
  raises w (CDeleteItemAsync key None) = true ->
  items (EventLoop.fire w t) !! key = items w !! key.
Proof.
  intros Hraise. unfold EventLoop.fire, EventLoop.run_callback.
  destruct (callback t) as [k]. unfold SecureStore.deleteItemAsync.
  destruct (decide (k = key)) as [->|Hne].
  - rewrite Hraise. reflexivity.
  - destruct (raises w (CDeleteItemAsync k None)); [reflexivity|].
    simpl. apply lookup_delete_ne. exact Hne.
Qed.

Lemma fire_all_keeps_undeletable (ts : list Timer) (w : World) (key : string) :
  raises w (CDeleteItemAsync key None) = true ->
  items (fold_left EventLoop.fire ts w) !! key = items w !! key.
Proof.
  revert w. induction ts as [|t ts IH]; intros w Hraise; [reflexivity|].
  simpl. rewrite IH.
  - apply fire_keeps_undeletable, Hraise.
  - destruct (fire_world w t) as (Hr & _). rewrite Hr. exact Hraise.
Qed.

Lemma advance_keeps_undeletable (elapsed : nat) (w : World) (key : string) :
  raises w (CDeleteItemAsync key None) = true ->
  items (EventLoop.advance elapsed w) !! key = items w !! key.
Proof.
  intros Hraise. rewrite advance_unfold.
  rewrite fire_all_keeps_undeletable by exact Hraise. reflexivity.
Qed.

(** X11. The deletion is tried once.  When the backend's delete of the key
    raises at the moment the timer fires, the entry stays, the timer has
    left the queue, and however much more time passes the entry is still
    there: it never expires. *)
Theorem X11_failed_deletion_is_not_retried (this : TypeSafeStore.t) (key : string)
    (value : JSValue) (ttl : Z) (elapsed more : nat) (w : World) :
  let nk := TypeSafeStore.getNamespacedKey this key in
  let serialized := TypeSafeStore.value (TypeSafeStore.setFn this key value) in
  let timer := {| due := clock w + Z.to_nat ttl; callback := DeleteItemLater nk |} in
  let w1 := snd (TypeSafeStore.setWithExpiration this key value ttl w) in
  let w2 := EventLoop.advance elapsed w1 in
  let w3 := EventLoop.advance more w2 in
  fst (SecureStore.setItemAsync nk serialized w) = Normal tt ->
  raises w (CDeleteItemAsync nk None) = true ->
  raises w (CGetItemAsync nk) = false ->
  (Z.to_nat ttl <= elapsed)%nat ->
  ~ In timer (timers w2)
  /\ items w2 !! nk = serialized
  /\ items w3 !! nk = serialized
  /\ fst (TypeSafeStore.existsAsync this key w3) = Normal true.
Proof.
  intros nk serialized timer w1 w2 w3 Hwrite Hdel Hget Hge.
  destruct (setItemAsync_completed nk serialized w Hwrite) as (stored & Hstored & Hset).
  subst w3 w2 w1.
  rewrite (setWithExpiration_writes this key value ttl stored w Hstored Hset).
  fold nk. fold timer.
  match goal with |- context [EventLoop.advance elapsed ?w0] => set (u := w0) end.
  destruct (advance_world elapsed u) as (Hr & _ & Ht & _).
  destruct (advance_world more (EventLoop.advance elapsed u)) as (Hr' & _).
  assert (H2 : items (EventLoop.advance elapsed u) !! nk = serialized).
  { rewrite advance_keeps_undeletable by exact Hdel.
    subst u. simpl. rewrite Hstored. apply lookup_insert_eq. }
  assert (H3 : items (EventLoop.advance more (EventLoop.advance elapsed u)) !! nk = serialized).
  { rewrite advance_keeps_undeletable by (rewrite Hr; exact Hdel). exact H2. }
  split; [|split; [exact H2|split; [exact H3|]]].
  - rewrite Ht. intros Hin. apply filter_In in Hin. destruct Hin as (_ & Hdue).
    unfold EventLoop.is_due in Hdue. subst u timer. simpl in Hdue.
    apply negb_true_iff, Nat.leb_gt in Hdue. lia.
  - rewrite existsAsync_reads by (rewrite Hr', Hr; exact Hget). fold nk.
    rewrite H3, Hstored. reflexivity.
Qed.

(** On a device where deletions raise, the entry set for 10 ms is still
    there after 10 and after 1010 ms. *)
Lemma X11_witness :
  let w1 := snd (TypeSafeStore.setWithExpiration Index.defaultStore "k" (JStr "v") 10
                   (Examples.locked ∅)) in
  items (EventLoop.advance 10 w1) !! "k" = Some "v"
  /\ fst (TypeSafeStore.existsAsync Index.defaultStore "k"
            (EventLoop.advance 1000 (EventLoop.advance 10 w1))) = Normal true.
Proof.
  pose proof (X11_failed_deletion_is_not_retried Index.defaultStore "k" (JStr "v") 10 10 1000
                (Examples.locked ∅) eq_refl eq_refl eq_refl) as H.
  destruct H as (_ & H2 & _ & H4); [vm_compute; lia|].
  split; [exact H2|exact H4].
Defined.

(* ===================================================================== *)
(** * Changing the namespace *)
(* ===================================================================== *)



(* ===================================================================== *)
(** * Which strings are read back *)
(* ===================================================================== *)

Lemma not_digit_not_zero (c : ascii) : is_digit c = false -> Ascii.eqb c "0" = false.
Proof.
  intros H. destruct (Ascii.eqb c "0") eqn:E; [|reflexivity].
  apply Ascii.eqb_eq in E. subst c. discriminate H.
Qed.

(** A text that is empty, or starts with a character no JSON text starts
    with, is not a JSON text. *)
Lemma plain_text_is_not_json (s : string) :
  Keys.plain_text s = true -> JS.JSON_parse s = None.
Proof.
  destruct s as [|c r]; [reflexivity|].
  unfold Keys.plain_text, Keys.starts_json. intros H. apply negb_true_iff in H.
  apply orb_false_iff in H as [H Hn]. apply orb_false_iff in H as [H Hf].
  apply orb_false_iff in H as [H Ht]. apply orb_false_iff in H as [H Hbrace].
  apply orb_false_iff in H as [H Hbracket]. apply orb_false_iff in H as [H Hquote].
  apply orb_false_iff in H as [H Hminus]. apply orb_false_iff in H as [Hws Hdigit].
  unfold JS.JSON_parse, parse_fuel. cbn [String.length].
  replace (2 * S (String.length r) + 2)%nat with (S (2 * String.length r + 3)) by lia.
  cbn [parse_value skip_ws].
  rewrite Hws, Hbrace, Hbracket, Hquote, Ht, Hf, Hn.
  unfold parse_number, parse_int_part.
  rewrite Hminus, (not_digit_not_zero c Hdigit), Hdigit. reflexivity.
Qed.

Lemma plain_text_read_back (s : string) :
  Keys.plain_text s = true -> Spec.read_back_as_written (JStr s) = true.
Proof. intros H. simpl. rewrite (plain_text_is_not_json s H). reflexivity. Qed.

(** X13. A string that is empty, or whose first character is none of
    those a JSON text starts with (white space, a digit, a minus sign, a
    quote, an opening bracket or brace, the letters t, f and n), is never
    taken for JSON: [isValidJson] is [false] for it, and [set] followed by
    [get] gives the schema that very string. *)
Theorem X13_plain_strings_are_read_back {T} (this : TypeSafeStore.t) (key s : string)
    (fallback : T) (schema : ZodSchema T) (d : T) (w : World) :
  Keys.plain_text s = true ->
  safeParse schema (JStr s) = ParseSuccess d ->
  raises w (CSetItem (TypeSafeStore.getNamespacedKey this key) s) = false ->
  raises w (CGetItem (TypeSafeStore.getNamespacedKey this key)) = false ->
  TypeSafeStore.isValidJson s = false
  /\ fst (TypeSafeStore.set this key (JStr s) w) = Normal true
  /\ fst (TypeSafeStore.get this key fallback schema
            (snd (TypeSafeStore.set this key (JStr s) w)))
     = Normal d.
Proof.
  intros Hplain Hschema Hset Hget.
  split.
  { unfold TypeSafeStore.isValidJson, TypeSafeStore.JSON_parse.
    rewrite (plain_text_is_not_json s Hplain). reflexivity. }
  destruct (set_then_get this key (JStr s) s fallback schema w eq_refl Hset Hget)
    as (Hdone & Hread).
  split; [exact Hdone|].
  rewrite Hread.
  change s with (ToString (JStr s)) at 1.
  rewrite (candidate_of_written (JStr s) (plain_text_read_back s Hplain)).
  unfold Spec.validated. rewrite Hschema. reflexivity.
Qed.

(** An e-mail address and the empty string are read back. *)
Lemma X13_witness :
  let w := Examples.quiet ∅ false in
  fst (TypeSafeStore.get Index.defaultStore "mail" (JStr "none") z_string
         (snd (TypeSafeStore.set Index.defaultStore "mail" (JStr "ada@example.org") w)))
  = Normal (JStr "ada@example.org")
  /\ fst (TypeSafeStore.get Index.defaultStore "mail" (JStr "none") z_string
            (snd (TypeSafeStore.set Index.defaultStore "mail" (JStr "") w)))
     = Normal (JStr "").
Proof.
  split.
  - exact (proj2 (proj2 (X13_plain_strings_are_read_back Index.defaultStore "mail"
                           "ada@example.org" (JStr "none") z_string (JStr "ada@example.org")
                           (Examples.quiet ∅ false) eq_refl eq_refl eq_refl eq_refl))).
  - exact (proj2 (proj2 (X13_plain_strings_are_read_back Index.defaultStore "mail"
                           "" (JStr "none") z_string (JStr "")
                           (Examples.quiet ∅ false) eq_refl eq_refl eq_refl eq_refl))).
Defined.

(* ===================================================================== *)
(** * The asynchronous pair *)
(* ===================================================================== *)

(** What [setFn] makes of a value that round-trips decodes to the value. *)
Lemma round_trips_stored (this : TypeSafeStore.t) (key : string) (v : JSValue) :
  Keys.round_trips v = true ->
  exists stored,
    TypeSafeStore.value (TypeSafeStore.setFn this key v) = Some stored
    /\ Spec.candidate stored = v.
Proof.
  unfold Keys.round_trips. intros H. apply orb_true_iff in H as [H | H].
  - exists (ToString v). split.
    + apply setFn_primitive, read_back_is_primitive, H.
    + apply candidate_of_written, H.
  - apply andb_true_iff in H as [Hstruct Hrep]. apply negb_true_iff in Hstruct.
    exists (text_of v). split.
    + rewrite (setFn_structured this key v Hstruct). apply representable_stringify, Hrep.
    + apply candidate_of_stringified, Hrep.
Qed.

(** X14. [setAsync] followed by [getAsync] gives back what [set] followed
    by [get] does: for a boolean, a finite number, a string that is not a
    JSON text, or a structured value without [undefined] and non-finite
    numbers, the schema receives the value itself, and its data for it is
    returned.  The same holds for [set] followed by [getAsync] and for
    [setAsync] followed by [get]. *)
Theorem X14_async_round_trip {T} (this : TypeSafeStore.t) (key : string) (v : JSValue)
    (fallback : T) (schema : ZodSchema T) (d : T) (w : World) :
  let nk := TypeSafeStore.getNamespacedKey this key in
  let serialized := TypeSafeStore.value (TypeSafeStore.setFn this key v) in
  Keys.round_trips v = true ->
  safeParse schema v = ParseSuccess d ->
  fst (SecureStore.setItemAsync nk serialized w) = Normal tt ->
  fst (SecureStore.setItem nk serialized w) = Normal tt ->
  raises w (CGetItemAsync nk) = false ->
  raises w (CGetItem nk) = false ->
  fst (TypeSafeStore.setAsync this key v w) = Normal true
  /\ fst (TypeSafeStore.getAsync this key fallback schema
            (snd (TypeSafeStore.setAsync this key v w))) = Normal d
  /\ fst (TypeSafeStore.get this key fallback schema
            (snd (TypeSafeStore.setAsync this key v w))) = Normal d
  /\ fst (TypeSafeStore.getAsync this key fallback schema
            (snd (TypeSafeStore.set this key v w))) = Normal d.
Proof.
  intros nk serialized Hv Hschema Hwa Hws Hgeta Hget.
  destruct (round_trips_stored this key v Hv) as (stored & Hstored & Hcand).
  destruct (setItemAsync_completed nk serialized w Hwa) as (sa & Hsa & Hra).
  destruct (setItem_completed nk serialized w Hws) as (ss & Hss & Hrs).
  subst serialized. rewrite Hstored in Hsa, Hss. injection Hsa as <-. injection Hss as <-.
  rewrite (setAsync_writes this key v stored w Hstored Hra).
  rewrite (set_writes this key v stored w Hstored Hrs). fold nk. cbn [fst snd].
  rewrite !getAsync_reads by exact Hgeta. rewrite get_reads by exact Hget. fold nk.
  cbn [fst items with_items]. rewrite lookup_insert_eq.
  unfold Spec.read, Spec.validated. rewrite Hcand, Hschema. repeat split.
Qed.

(** An object written with [setAsync] is read with [getAsync]. *)
Lemma X14_witness :
  let w := Examples.quiet ∅ false in
  let v := JObj [("name", JStr "ada"); ("age", JNum (NInt 36))] in
  fst (TypeSafeStore.getAsync Index.defaultStore "user" JNull
         {| safeParse := fun c => ParseSuccess c |}
         (snd (TypeSafeStore.setAsync Index.defaultStore "user" v w)))
  = Normal v.
Proof.
  exact (proj1 (proj2 (X14_async_round_trip Index.defaultStore "user"
                         (JObj [("name", JStr "ada"); ("age", JNum (NInt 36))]) JNull
                         {| safeParse := fun c => ParseSuccess c |}
                         (JObj [("name", JStr "ada"); ("age", JNum (NInt 36))])
                         (Examples.quiet ∅ false)
                         eq_refl eq_refl eq_refl eq_refl eq_refl eq_refl))).
Defined.

(* ===================================================================== *)
(** * The value without a serialization *)
(* ===================================================================== *)


(* ===================================================================== *)
(** * [clear] and [length] *)
(* ===================================================================== *)

(** X16. [clear] removes nothing and [length] counts nothing: each writes
    one warning to the console and leaves the world as it is, [length]
    answering 0 whatever the backend holds.  So an entry written with
    [set] is still there after [clear], and [length] is 0 then too. *)
Theorem X16_clear_and_length_do_nothing (key : string) (value : JSValue)
    (log : Console.Log) (w : World) :
  let w1 := snd (Index.set key value w) in
  fst (Index.set key value w) = Normal true ->
  raises w (CGetItem key) = false ->
  Index.clear log w1
  = (Normal (tt, (log ++ ["Clear method is not supported by expo-secure-store"])%list), w1)
  /\ Index.length log w1
     = (Normal (NInt 0, (log ++ ["Length method is not supported by expo-secure-store"])%list),
        w1)
  /\ fst (Index.exists_ key (snd (Index.clear log w1))) = Normal true
  /\ items (snd (Index.clear log w1)) = items w1
  /\ (0 < size (items (snd (Index.length log w1))))%nat.
Proof.
  intros w1 Hset Hget.
  split; [reflexivity|]. split; [reflexivity|].
  change (snd (Index.clear log w1)) with w1. change (snd (Index.length log w1)) with w1.
  assert (Hw1 : exists stored, w1 = with_items w (<[key := stored]> (items w))).
  { subst w1. unfold Index.set, TypeSafeStore.set, bind, SecureStore.setItem in *.
    change (TypeSafeStore.key (TypeSafeStore.setFn Index.defaultStore key value)) with key in *.
    destruct (TypeSafeStore.value (TypeSafeStore.setFn Index.defaultStore key value))
      as [stored|]; [|discriminate Hset].
    destruct (raises w (CSetItem key stored)); [discriminate Hset|].
    exists stored. reflexivity. }
  destruct Hw1 as (stored & Hw1).
  assert (Hthere : items w1 !! key = Some stored).
  { rewrite Hw1. simpl. apply lookup_insert_eq. }
  assert (Hr : raises w1 = raises w) by (rewrite Hw1; reflexivity).
  split; [|split; [reflexivity|]].
  - unfold Index.exists_. rewrite exists_reads by (rewrite Hr; exact Hget).
    change (TypeSafeStore.getNamespacedKey Index.defaultStore key) with key.
    rewrite Hthere. reflexivity.
  - destruct (decide (size (items w1) = 0)) as [Hz|Hz]; [|lia].
    apply map_size_empty_inv in Hz. rewrite Hz in Hthere. rewrite lookup_empty in Hthere.
    discriminate.
Qed.

(** After [set("k", 7)], [clear] and [length] leave ["k"] in place. *)
Lemma X16_witness :
  let w1 := snd (Index.set "k" (JNum (NInt 7)) (Examples.quiet ∅ false)) in
  fst (Index.length [] w1)
  = Normal (NInt 0, ["Length method is not supported by expo-secure-store"])
  /\ fst (Index.exists_ "k" (snd (Index.clear [] w1))) = Normal true.
Proof.
  pose proof (X16_clear_and_length_do_nothing "k" (JNum (NInt 7)) []
                (Examples.quiet ∅ false) eq_refl eq_refl) as (_ & Hlen & Hexists & _).
  split; [rewrite Hlen; reflexivity|exact Hexists].
Defined.

(* ===================================================================== *)
(** * The backend key is all that matters *)
(* ===================================================================== *)

(** X17. The methods depend on the store and the logical key only through
    the backend key they form: when two stores, each with a key, form the
    same backend key, every method of one at its key is the same call as
    that method of the other at its key. *)
Theorem X17_same_backend_key_same_calls (s1 s2 : TypeSafeStore.t) (k1 k2 : string) :
  TypeSafeStore.getNamespacedKey s1 k1 = TypeSafeStore.getNamespacedKey s2 k2 ->
  (forall value, TypeSafeStore.set s1 k1 value = TypeSafeStore.set s2 k2 value)
  /\ (forall value, TypeSafeStore.setAsync s1 k1 value = TypeSafeStore.setAsync s2 k2 value)
  /\ (forall value ttl,
        TypeSafeStore.setWithExpiration s1 k1 value ttl
        = TypeSafeStore.setWithExpiration s2 k2 value ttl)
  /\ (forall T (fallback : T) schema,
        TypeSafeStore.get s1 k1 fallback schema = TypeSafeStore.get s2 k2 fallback schema
        /\ TypeSafeStore.getAsync s1 k1 fallback schema
           = TypeSafeStore.getAsync s2 k2 fallback schema)
  /\ TypeSafeStore.exists_ s1 k1 = TypeSafeStore.exists_ s2 k2
  /\ TypeSafeStore.existsAsync s1 k1 = TypeSafeStore.existsAsync s2 k2
  /\ (forall options,
        TypeSafeStore.removeAsync s1 k1 options = TypeSafeStore.removeAsync s2 k2 options).
Proof.
  intros H.
  unfold TypeSafeStore.set, TypeSafeStore.setAsync, TypeSafeStore.setWithExpiration,
    TypeSafeStore.get, TypeSafeStore.getAsync, TypeSafeStore.exists_,
    TypeSafeStore.existsAsync, TypeSafeStore.removeAsync, TypeSafeStore.setFn.
  cbn [TypeSafeStore.key TypeSafeStore.value]. rewrite H. repeat split.
Qed.

(** The module-level API, given the key ["app:token"], makes the calls
    the store ["app"] makes for ["token"]. *)
Lemma X17_witness :
  TypeSafeStore.exists_ (TypeSafeStore.constructor (Some "app")) "token"
  = Index.exists_ "app:token"
  /\ TypeSafeStore.set (TypeSafeStore.constructor (Some "app")) "token" (JStr "s")
     = Index.set "app:token" (JStr "s").
Proof.
  destruct (X17_same_backend_key_same_calls (TypeSafeStore.constructor (Some "app"))
              Index.defaultStore "token" "app:token" eq_refl)
    as (Hset & _ & _ & _ & Hexists & _).
  split; [exact Hexists|apply Hset].
Defined.

(* ===================================================================== *)
(** * A store touches its own keys only *)
(* ===================================================================== *)

Lemma fire_own (this : TypeSafeStore.t) (t : Timer) (w : World) (key' : string) :
  Keys.own_timer this t ->
  (forall k, TypeSafeStore.getNamespacedKey this k <> key') ->
  items (EventLoop.fire w t) !! key' = items w !! key'.
Proof.
  intros (k & Hk) Hforeign. unfold EventLoop.fire, EventLoop.run_callback. rewrite Hk.
  unfold SecureStore.deleteItemAsync.
  destruct (raises w _); [reflexivity|]. simpl.
  apply lookup_delete_ne, Hforeign.
Qed.

Lemma fire_all_own (this : TypeSafeStore.t) (ts : list Timer) (w : World) (key' : string) :
  List.Forall (Keys.own_timer this) ts ->
  (forall k, TypeSafeStore.getNamespacedKey this k <> key') ->
  items (fold_left EventLoop.fire ts w) !! key' = items w !! key'.
Proof.
  intros Hown Hforeign. revert w.
  induction Hown as [|t ts Ht Hts IH]; intros w; [reflexivity|].
  simpl. rewrite IH. apply (fire_own this); assumption.
Qed.

Lemma filter_own (this : TypeSafeStore.t) (f : Timer -> bool) (ts : list Timer) :
  List.Forall (Keys.own_timer this) ts ->
  List.Forall (Keys.own_timer this) (List.filter f ts).
Proof.
  rewrite !List.Forall_forall. intros H t Hin. apply filter_In in Hin. apply H, Hin.
Qed.

(** One action keeps a foreign key as it is and the queue the store's. *)
Lemma perform_own (this : TypeSafeStore.t) (a : Trace.Action) (w : World) (key' : string) :
  List.Forall (Keys.own_timer this) (timers w) ->
  (forall k, TypeSafeStore.getNamespacedKey this k <> key') ->
  items (Trace.perform this a w) !! key' = items w !! key'
  /\ List.Forall (Keys.own_timer this) (timers (Trace.perform this a w)).
Proof.
  intros Hown Hforeign. destruct a as [k v | k v | k v ttl | k o | ms]; simpl.
  - unfold TypeSafeStore.set, bind, ret, SecureStore.setItem.
    change (TypeSafeStore.key (TypeSafeStore.setFn this k v))
      with (TypeSafeStore.getNamespacedKey this k).
    destruct (TypeSafeStore.value (TypeSafeStore.setFn this k v)) as [s|]; [|auto].
    destruct (raises w _); simpl; [auto|].
    split; [apply lookup_insert_ne, Hforeign|exact Hown].
  - unfold TypeSafeStore.setAsync, bind, ret, SecureStore.setItemAsync.
    change (TypeSafeStore.key (TypeSafeStore.setFn this k v))
      with (TypeSafeStore.getNamespacedKey this k).
    destruct (TypeSafeStore.value (TypeSafeStore.setFn this k v)) as [s|]; [|auto].
    destruct (raises w _); simpl; [auto|].
    split; [apply lookup_insert_ne, Hforeign|exact Hown].
  - unfold TypeSafeStore.setWithExpiration, bind, setTimeout, SecureStore.setItemAsync.
    change (TypeSafeStore.key (TypeSafeStore.setFn this k v))
      with (TypeSafeStore.getNamespacedKey this k).
    destruct (TypeSafeStore.value (TypeSafeStore.setFn this k v)) as [s|]; [|auto].
    destruct (raises w _); simpl; [auto|].
    split; [apply lookup_insert_ne, Hforeign|].
    apply List.Forall_app. split; [exact Hown|].
    apply List.Forall_cons; [|apply List.Forall_nil]. exists k. reflexivity.
  - rewrite removeAsync_runs. destruct (raises w _); simpl; [auto|].
    split; [apply lookup_delete_ne, Hforeign|exact Hown].
  - rewrite advance_unfold. split.
    + rewrite (fire_all_own this); [reflexivity| |exact Hforeign].
      apply filter_own, Hown.
    + match goal with |- context [fold_left EventLoop.fire ?ts ?w0] =>
        destruct (fire_all_world ts w0) as (_ & Ht & _) end.
      rewrite Ht. simpl. apply filter_own, Hown.
Qed.

(** X18. A store changes no entry but its own.  When the timers pending
    are the store's, then whatever is done through the store (writes,
    writes with expiration, removals, time passing), an entry under a
    backend key that the store forms for no logical key is afterwards
    exactly what it was, and the timers pending are still the store's. *)
Theorem X18_store_changes_only_its_own_keys (this : TypeSafeStore.t)
    (actions : list Trace.Action) (w : World) (key' : string) :
  List.Forall (Keys.own_timer this) (timers w) ->
  (forall k, TypeSafeStore.getNamespacedKey this k <> key') ->
  items (Trace.perform_all this actions w) !! key' = items w !! key'
  /\ List.Forall (Keys.own_timer this) (timers (Trace.perform_all this actions w)).
Proof.
  intros Hown Hforeign. revert w Hown.
  induction actions as [|a actions IH]; intros w Hown; [split; [reflexivity|exact Hown]|].
  simpl. destruct (perform_own this a w key' Hown Hforeign) as (Hi & Ht).
  destruct (IH _ Ht) as (Hi' & Ht'). split; [congruence|exact Ht'].
Qed.

(** Whatever store ["app"] does, the entry ["theme"] of the default store
    keeps its value. *)
Lemma X18_witness :
  let st := TypeSafeStore.constructor (Some "app") in
  let actions :=
    [Trace.DoSet "theme" (JStr "dark"); Trace.DoSetWithExpiration "theme" JNull 5;
     Trace.Elapse 5; Trace.DoRemoveAsync "theme" None] in
  items (Trace.perform_all st actions (Examples.quiet {[ "theme" := "light" ]} false))
    !! "theme"
  = Some "light".
Proof.
  refine (proj1 (X18_store_changes_only_its_own_keys (TypeSafeStore.constructor (Some "app"))
                   _ (Examples.quiet {[ "theme" := "light" ]} false) "theme"
                   (List.Forall_nil _) _)).
  intros k. discriminate.
Defined.

Lemma fire_all_one_key (ts : list Timer) (w : World) (nk other : string) :
  List.Forall (fun t => callback t = DeleteItemLater nk) ts ->
  other <> nk ->
  items (fold_left EventLoop.fire ts w) !! other = items w !! other.
Proof.
  intros Hall Hne. revert w.
  induction Hall as [|t ts Ht Hts IH]; intros w; [reflexivity|].
  simpl. rewrite IH. unfold EventLoop.fire, EventLoop.run_callback. rewrite Ht.
  unfold SecureStore.deleteItemAsync. destruct (raises w _); [reflexivity|].
  simpl. apply lookup_delete_ne. congruence.
Qed.

(** X19. An expiration deletes its own key and no other.  Where no timer
    was pending before [setWithExpiration(k, v, ttl)], every entry under
    another backend key is, however much time then passes, exactly what
    it was before the call. *)
Theorem X19_expiration_spares_other_keys (this : TypeSafeStore.t) (key other : string)
    (value : JSValue) (ttl : Z) (elapsed : nat) (w : World) :
  timers w = [] ->
  other <> TypeSafeStore.getNamespacedKey this key ->
  items (EventLoop.advance elapsed
           (snd (TypeSafeStore.setWithExpiration this key value ttl w))) !! other
  = items w !! other.
Proof.
  intros Hnone Hother. rewrite advance_unfold.
  set (nk := TypeSafeStore.getNamespacedKey this key) in *.
  assert (Hw1 : let w1 := snd (TypeSafeStore.setWithExpiration this key value ttl w) in
                List.Forall (fun t => callback t = DeleteItemLater nk) (timers w1)
                /\ items w1 !! other = items w !! other).
  { unfold TypeSafeStore.setWithExpiration, bind, setTimeout, SecureStore.setItemAsync.
    change (TypeSafeStore.key (TypeSafeStore.setFn this key value)) with nk.
    destruct (TypeSafeStore.value (TypeSafeStore.setFn this key value)) as [s|];
      [|simpl; rewrite Hnone; split; [apply List.Forall_nil|reflexivity]].
    destruct (raises w _); simpl; rewrite Hnone;
      [split; [apply List.Forall_nil|reflexivity]|].
    split; [|apply lookup_insert_ne; congruence].
    apply List.Forall_cons; [reflexivity|apply List.Forall_nil]. }
  destruct Hw1 as (Hall & Hitems).
  rewrite (fire_all_one_key _ _ nk other); [exact Hitems| |exact Hother].
  rewrite List.Forall_forall in Hall |- *. intros t Hin.
  apply filter_In in Hin. apply Hall, Hin.
Qed.

(** The session expires; the user name stored beside it stays. *)
Lemma X19_witness :
  let st := TypeSafeStore.constructor (Some "app") in
  let w := Examples.quiet {[ "app:user" := "ada" ]} false in
  let later := EventLoop.advance 100 (snd (TypeSafeStore.setWithExpiration st "session"
                                             (JStr "s") 100 w)) in
  items later !! "app:user" = Some "ada"
  /\ items later !! "app:session" = None.
Proof.
  split; [|reflexivity].
  refine (X19_expiration_spares_other_keys (TypeSafeStore.constructor (Some "app")) "session"
            "app:user" (JStr "s") 100 100 (Examples.quiet {[ "app:user" := "ada" ]} false)
            eq_refl _).
  discriminate.
Defined.
